(** * metasrc.tex.normalizer: a shallow embedding and its properties

    The module under study is [src/metasrc/tex/normalizer.py].  It is built
    from five functions, four of which are one call to [re.sub] each:

    - [remove_comments]            [re.sub(r'(?<!\\)%.*$', r'', s, flags=re.M)]
    - [remove_trailing_whitespace] [re.sub(r'[ \t]+$', '', s, flags=re.M)]
    - [process_inputs]             [input_include_pattern.sub(_sub_line, s)]
    - [replace_macros]             a loop of [re.sub(pattern, lambda, s)]
    - [read_tex_file]              open, read, the three transforms above.

    The embedding therefore has three layers: a backtracking matcher for the
    fragment of Python's regular expressions the module uses, [re.sub] on top
    of it, and the five functions written with the patterns of the source.

    Text is a list of characters.  A character is an 8-bit code point
    ([ascii]); the classes [\w] and [\s] are Python's classes for [str]
    patterns on the code points below 256. *)

From Stdlib Require Import Ascii String List Bool Arith Lia.
Import ListNotations.

Local Open Scope list_scope.

(** ** Text *)

Definition text := list ascii.

(** [T "abc"] is the text of a string literal. *)
Definition T (s : string) : text := list_ascii_of_string s.

Definition newline : ascii := "010"%char.
Definition tab : ascii := "009"%char.
Definition backslash : ascii := "\"%char.
Definition percent : ascii := "%"%char.
Definition carriage_return : ascii := "013"%char.

Definition code (c : ascii) : nat := nat_of_ascii c.

Definition between (lo hi : nat) (c : ascii) : bool :=
  (lo <=? code c) && (code c <=? hi).

(** [\w]: letters, digits and the underscore; above 127 the code points
    Python counts as alphanumeric. *)
Definition is_word (c : ascii) : bool :=
  between 48 57 c || between 65 90 c || between 97 122 c || (code c =? 95)
  || (code c =? 170) || (code c =? 178) || (code c =? 179) || (code c =? 181)
  || (code c =? 185) || (code c =? 186) || between 188 190 c
  || between 192 214 c || between 216 246 c || between 248 255 c.

(** [\s]: the characters Python counts as white space. *)
Definition is_space (c : ascii) : bool :=
  between 9 13 c || between 28 32 c || (code c =? 133) || (code c =? 160).

(** ** The matcher *)

(** The fragment of [re] syntax used by the module.  Repetition is only ever
    applied to a single character or class in the source, so the repetition
    nodes carry a class. *)
Inductive regex : Type :=
| Eps
| Chr (c : ascii)                      (* a literal or escaped character *)
| Cls (p : ascii -> bool)              (* [...] and . *)
| Cat (r1 r2 : regex)                  (* r1 r2 *)
| Alt (r1 r2 : regex)                  (* r1|r2 *)
| Rep (p : ascii -> bool)              (* p*   greedy *)
| RepLazy (p : ascii -> bool)          (* p*?  lazy *)
| Rep1 (p : ascii -> bool)             (* p+   greedy *)
| Opt (r : regex)                      (* r?   greedy *)
| NotAfter (c : ascii)                 (* (?<!c) *)
| EndOfLine                            (* $ under re.M *)
| Named (name : string) (r : regex).   (* (?P<name>r) *)

(** A literal word. *)
Definition Str (s : text) : regex := fold_right (fun c r => Cat (Chr c) r) Eps s.

(** The matcher's position inside the subject: the character just behind the
    position (what a look-behind sees), the text ahead, the text eaten since
    the match started (latest character first) and the groups closed so far
    (latest first). *)
Record cursor : Type := Cursor {
  behind : option ascii;
  ahead : text;
  eaten : text;
  groups : list (string * text)
}.

Definition eat_if (p : ascii -> bool) (k : cursor) : list cursor :=
  match ahead k with
  | [] => []
  | a :: s => if p a then [Cursor (Some a) s (a :: eaten k) (groups k)] else []
  end.

(** Greedy repetition: the longest run is tried first. *)
Fixpoint rep_greedy (p : ascii -> bool) (b : option ascii) (s e : text)
    (g : list (string * text)) : list cursor :=
  match s with
  | a :: s' =>
      if p a then rep_greedy p (Some a) s' (a :: e) g ++ [Cursor b s e g]
      else [Cursor b s e g]
  | [] => [Cursor b s e g]
  end.

(** Lazy repetition: the shortest run is tried first. *)
Fixpoint rep_lazy (p : ascii -> bool) (b : option ascii) (s e : text)
    (g : list (string * text)) : list cursor :=
  match s with
  | a :: s' =>
      Cursor b s e g :: (if p a then rep_lazy p (Some a) s' (a :: e) g else [])
  | [] => [Cursor b s e g]
  end.

(** [run r k] lists the positions at which [r] can end when started at [k],
    in the order in which a backtracking matcher reaches them. *)
Fixpoint run (r : regex) (k : cursor) : list cursor :=
  match r with
  | Eps => [k]
  | Chr c => eat_if (Ascii.eqb c) k
  | Cls p => eat_if p k
  | Cat r1 r2 => flat_map (run r2) (run r1 k)
  | Alt r1 r2 => run r1 k ++ run r2 k
  | Rep p => rep_greedy p (behind k) (ahead k) (eaten k) (groups k)
  | RepLazy p => rep_lazy p (behind k) (ahead k) (eaten k) (groups k)
  | Rep1 p => flat_map (fun k' => rep_greedy p (behind k') (ahead k') (eaten k') (groups k'))
                       (eat_if p k)
  | Opt r => run r k ++ [k]
  | NotAfter c =>
      match behind k with
      | Some b => if Ascii.eqb b c then [] else [k]
      | None => [k]
      end
  | EndOfLine =>
      match ahead k with
      | [] => [k]
      | a :: _ => if Ascii.eqb a newline then [k] else []
      end
  | Named name r =>
      map (fun k' => Cursor (behind k') (ahead k') (eaten k' ++ eaten k)
                            ((name, rev (eaten k')) :: groups k'))
          (run r (Cursor (behind k) (ahead k) [] (groups k)))
  end.

(** A match object: [group(0)] and the named groups. *)
Record match_obj : Type := Match {
  matched : text;
  named : list (string * text)
}.

Fixpoint lookup (name : string) (g : list (string * text)) : option text :=
  match g with
  | [] => None
  | (n, v) :: g' => if String.eqb n name then Some v else lookup name g'
  end.

(** [match.group(name)]. *)
Definition group (m : match_obj) (name : string) : option text :=
  lookup name (named m).

(** The first way, if any, in which [r] matches at the position whose
    preceding character is [b] and whose remaining text is [s].  With
    [must_advance] an empty match is not accepted. *)
Definition match_at (r : regex) (b : option ascii) (s : text)
    (must_advance : bool) : option match_obj :=
  match filter (fun k => negb must_advance || negb (Nat.eqb (length (eaten k)) 0))
               (run r (Cursor b s [] [])) with
  | k :: _ => Some (Match (rev (eaten k)) (groups k))
  | [] => None
  end.

(** ** [re.sub] *)

(** The subject cut into the characters kept and the matches found. *)
Inductive piece : Type :=
| Keep (c : ascii)
| Found (m : match_obj).

(** The scan of [re.sub] and [re.finditer]: leftmost match first, the next
    search starting where the last match ended.  [skip] counts the characters
    of the current match still to be passed over.  After an empty match the
    next match at the same place has to advance (CPython 3.7 and later). *)
Fixpoint scan (r : regex) (b : option ascii) (s : text) (skip : nat) : list piece :=
  match s with
  | [] =>
      match skip with
      | S _ => []
      | O =>
          match match_at r b [] false with
          | Some m => [Found m]
          | None => []
          end
      end
  | c :: s' =>
      match skip with
      | S n => scan r (Some c) s' n
      | O =>
          match match_at r b s false with
          | None => Keep c :: scan r (Some c) s' 0
          | Some m =>
              match length (matched m) with
              | S n => Found m :: scan r (Some c) s' n
              | O =>
                  Found m ::
                  match match_at r b s true with
                  | Some m' => Found m' :: scan r (Some c) s' (pred (length (matched m')))
                  | None => Keep c :: scan r (Some c) s' 0
                  end
              end
          end
      end
  end.

Definition finditer (r : regex) (s : text) : list piece := scan r None s 0.

(** [re.sub(r, repl, s)] for a replacement that cannot fail. *)
Definition re_sub (r : regex) (repl : match_obj -> text) (s : text) : text :=
  flat_map (fun p => match p with Keep c => [c] | Found m => repl m end)
           (finditer r s).

(** ** The patterns of the module *)

Definition any_but_newline (c : ascii) : bool := negb (Ascii.eqb c newline).
Definition space_or_tab (c : ascii) : bool := Ascii.eqb c " "%char || Ascii.eqb c tab.
Definition is_blank (c : ascii) : bool := Ascii.eqb c " "%char.
Definition is_lbrace (c : ascii) : bool := Ascii.eqb c "{"%char.
(** [[\w/\-\.]] *)
Definition filename_char (c : ascii) : bool :=
  is_word c || Ascii.eqb c "/"%char || Ascii.eqb c "-"%char || Ascii.eqb c "."%char.
(** [[\}%\s]] *)
Definition closing_char (c : ascii) : bool :=
  Ascii.eqb c "}"%char || Ascii.eqb c percent || is_space c.

(** [(?<!\\)%.*$] *)
Definition comment_pattern : regex :=
  Cat (NotAfter backslash) (Cat (Chr percent) (Cat (Rep any_but_newline) EndOfLine)).

(** [[ \t]+$] *)
Definition trailing_pattern : regex :=
  Cat (Rep1 space_or_tab) EndOfLine.

(** [\\(?P<command>input|include)[ ]*?{*?(?P<filename>[\w/\-\.]+)[\}%\s]] *)
Definition input_include_pattern : regex :=
  Cat (Chr backslash)
 (Cat (Named "command" (Alt (Str (T "input")) (Str (T "include"))))
 (Cat (RepLazy is_blank)
 (Cat (RepLazy is_lbrace)
 (Cat (Named "filename" (Rep1 filename_char))
      (Cls closing_char))))).

(** [\\input[ ]*?{*?(?P<filename>[\w/\-\.]+)[\}%\s]] *)
Definition input_pattern : regex :=
  Cat (Chr backslash)
 (Cat (Str (T "input"))
 (Cat (RepLazy is_blank)
 (Cat (RepLazy is_lbrace)
 (Cat (Named "filename" (Rep1 filename_char))
      (Cls closing_char))))).

(** [\\include[ ]*?{*?(?P<filename>[\w/\-\.]+)[\}%\s]] *)
Definition include_pattern : regex :=
  Cat (Chr backslash)
 (Cat (Str (T "include"))
 (Cat (RepLazy is_blank)
 (Cat (RepLazy is_lbrace)
 (Cat (Named "filename" (Rep1 filename_char))
      (Cls closing_char))))).

(** ** The leaf transforms *)

Definition remove_comments (tex_source : text) : text :=
  re_sub comment_pattern (fun _ => []) tex_source.

Definition remove_trailing_whitespace (tex_source : text) : text :=
  re_sub trailing_pattern (fun _ => []) tex_source.

(** ** Exceptions and the log *)

(** The exceptions the module can end in.  [IOError] carries the name of the
    file that could not be opened.  [RecursionError] is what the interpreter
    raises when includes nest deeper than its stack allows.
    [UnicodeDecodeError] is raised by reading a file that opens but does not
    decode, [UnicodeEncodeError] and [ValueError] by [print] on a stream
    that cannot encode a character or is closed; none of the three is an
    [IOError]. *)
Inductive exn : Type :=
| IOError (filename : text)
| TypeError
| AttributeError
| RecursionError
| UnicodeDecodeError
| UnicodeEncodeError
| ValueError.

Inductive result (A : Type) : Type :=
| Return (a : A)
| Raise (e : exn).

Arguments Return {A} a.
Arguments Raise {A} e.

(** A computation yields the records it wrote with [logger.error], oldest
    first, and how it ended. *)
Definition M (A : Type) : Type := (list text * result A)%type.

Definition ret {A : Type} (a : A) : M A := ([], Return a).
Definition raise {A : Type} (e : exn) : M A := ([], Raise e).

Definition bind {A B : Type} (m : M A) (f : A -> M B) : M B :=
  match m with
  | (l, Return a) => let (l', r) := f a in (l ++ l', r)
  | (l, Raise e) => (l, Raise e)
  end.

Notation "x <- m ;; f" := (bind m (fun x => f))
  (at level 61, m at next level, right associativity).

Definition logger_error {A : Type} (message : text) (m : M A) : M A :=
  let (l, r) := m in (message :: l, r).

(** [try: m / except IOError: handler (which re-raises) / else: return]. *)
Definition except_IOError {A : Type} (m : M A) (handler : exn -> M A) : M A :=
  match m with
  | (l, Raise (IOError f)) => let (l', r) := handler (IOError f) in (l ++ l', r)
  | _ => m
  end.

(** [re.sub(r, repl, s)] for a callable [repl] that may raise: the matches are
    replaced from left to right and the first exception ends the call. *)
Fixpoint sub_pieces (repl : match_obj -> M text) (ps : list piece) : M text :=
  match ps with
  | [] => ret []
  | Keep c :: ps' => out <- sub_pieces repl ps' ;; ret (c :: out)
  | Found m :: ps' =>
      x <- repl m ;; out <- sub_pieces repl ps' ;; ret (x ++ out)
  end.

Definition re_sub_callable (r : regex) (repl : match_obj -> M text) (s : text) : M text :=
  sub_pieces repl (finditer r s).

(** [s.startswith(p)] *)
Fixpoint starts_with (p s : text) : bool :=
  match p, s with
  | [], _ => true
  | a :: p', b :: s' => Ascii.eqb a b && starts_with p' s'
  | _ :: _, [] => false
  end.

(** [s.endswith(suffix)] *)
Definition endswith (s suffix : text) : bool := starts_with (rev suffix) (rev s).

(** ** The inclusion resolver *)

Section Resolver.

(** The file system and [os.path], which the module takes from its
    environment.  [open_read path] is [open(path, 'r').read()], with the
    file closed again by [with]: the text of the file, or the exception
    raised, an [IOError] for a file that cannot be opened and another
    exception for one that opens but cannot be decoded. *)
Variable open_read : text -> result text.
Variable path_join : text -> text -> text.
Variable abspath : text -> text.
Variable dirname : text -> text.

(** The name [_sub_line] gives the file of a directive. *)
Definition full_fname (fname : text) : text :=
  if negb (endswith fname (T ".tex")) then fname ++ T "." ++ T "tex" else fname.

Definition cannot_open (full_path : text) : text :=
  T "Cannot open " ++ full_path ++ T " for inclusion".

(** [_sub_line], the replacement function of [process_inputs];
    [read] is the [read_tex_file] it calls. *)
Definition _sub_line (read : text -> option text -> M text)
    (root_dir : option text) (m : match_obj) : M text :=
  match group m "filename" with
  | None => raise AttributeError
  | Some fname =>
      match root_dir with
      | None => raise TypeError
      | Some dir =>
          let full_path := abspath (path_join dir (full_fname fname)) in
          except_IOError (read full_path (Some dir))
            (fun e => logger_error (cannot_open full_path) (raise e))
      end
  end.

Definition process_inputs_with (read : text -> option text -> M text)
    (tex_source : text) (root_dir : option text) : M text :=
  re_sub_callable input_include_pattern (_sub_line read root_dir) tex_source.

(** [depth] is the number of nested [read_tex_file] calls the interpreter
    still allows. *)
Fixpoint read_tex_file (depth : nat) (root_filepath : text)
    (root_dir : option text) : M text :=
  match depth with
  | O => raise RecursionError
  | S depth' =>
      match open_read root_filepath with
      | Raise e => raise e
      | Return tex_source =>
          let root_dir :=
            match root_dir with
            | None => dirname root_filepath
            | Some dir => dir
            end in
          let tex_source := remove_comments tex_source in
          let tex_source := remove_trailing_whitespace tex_source in
          process_inputs_with (read_tex_file depth') tex_source (Some root_dir)
      end
  end.

Definition process_inputs (depth : nat) (tex_source : text)
    (root_dir : option text) : M text :=
  process_inputs_with (read_tex_file depth) tex_source root_dir.

End Resolver.

(** ** The macro substituter *)

(** [re.escape(macro_name) + r"\\?"], compiled: every character of the name
    stands for itself, then an optional backslash. *)
Definition macro_pattern (macro_name : text) : regex :=
  Cat (Str macro_name) (Opt (Chr backslash)).

(** The value [replace_macros] returns; [macros] is the dictionary in
    iteration order.  What the loop body writes besides is in
    [Console.replace_macros] below. *)
Definition replace_macros (tex_source : text) (macros : list (text * text)) : text :=
  fold_left
    (fun tex_source entry =>
       re_sub (macro_pattern (fst entry)) (fun _ => snd entry) tex_source)
    macros tex_source.

(** ** What the macro substituter writes *)

(** [re.escape(s)] of CPython 3.7 and later: a backslash in front of each
    character that means something in a pattern. *)
Definition special_char (c : ascii) : bool :=
  existsb (Ascii.eqb c)
    (T "()[]{}?*+-|^$\.&~# " ++ [tab; newline; carriage_return; "011"%char; "012"%char]).

Definition re_escape (s : text) : text :=
  flat_map (fun c => if special_char c then [backslash; c] else [c]) s.

(** [repr(s)], which [%r] puts in: the text in quotes, with the quote and
    the backslash escaped and the characters that do not print written as
    [\t], [\n], [\r] or [\xNN]. *)
Definition single_quote : ascii := "'"%char.
Definition double_quote : ascii := "034"%char.

Definition printable (c : ascii) : bool :=
  (32 <=? code c) && negb ((127 <=? code c) && (code c <=? 160))
  && negb (code c =? 173).

Definition hex_digit (n : nat) : ascii := nth n (T "0123456789abcdef") "0"%char.

Definition repr_char (quote c : ascii) : text :=
  if Ascii.eqb c quote || Ascii.eqb c backslash then [backslash; c]
  else if Ascii.eqb c tab then T "\t"
  else if Ascii.eqb c newline then T "\n"
  else if Ascii.eqb c carriage_return then T "\r"
  else if printable c then [c]
  else T "\x" ++ [hex_digit (code c / 16); hex_digit (code c mod 16)].

Definition repr (s : text) : text :=
  let quote :=
    if existsb (Ascii.eqb single_quote) s && negb (existsb (Ascii.eqb double_quote) s)
    then double_quote else single_quote in
  quote :: flat_map (repr_char quote) s ++ [quote].

Module Console.

Section Output.

(** Where the process writes: [sys.stdout] and the handlers of the logging
    module, in a state of type [console].  [logger_debug out record] is
    [logger.debug] with the record formatted, which hands the record to the
    handlers and does not raise.  [print out line] is [print(line)]: the
    state afterwards and the exception raised, if any. *)
Variable console : Type.
Variable logger_debug : console -> text -> console.
Variable print : console -> text -> console * option exn.

(** [replace_macros] with what it writes: per entry of the table a debug
    record and two printed lines, in front of the substitution. *)
Fixpoint replace_macros (out : console) (tex_source : text)
    (macros : list (text * text)) : console * result text :=
  match macros with
  | [] => (out, Return tex_source)
  | (macro_name, macro_content) :: macros' =>
      let pattern := re_escape macro_name ++ T "\\?" in
      let out := logger_debug out (T "replacing macro " ++ repr pattern) in
      match print out (T "replacing macro " ++ repr pattern) with
      | (out, Some e) => (out, Raise e)
      | (out, None) =>
          match print out (T "macro_content " ++ repr macro_content) with
          | (out, Some e) => (out, Raise e)
          | (out, None) =>
              replace_macros out
                (re_sub (macro_pattern macro_name) (fun _ => macro_content) tex_source)
                macros'
          end
      end
  end.

End Output.

End Console.

(** * The vocabulary of the properties *)

(** ** The pieces of a scan *)

(** The text [re.sub] builds from the pieces of a scan. *)
Definition render (repl : match_obj -> text) (ps : list piece) : text :=
  flat_map (fun p => match p with Keep c => [c] | Found m => repl m end) ps.

(** The replacement of [remove_comments] and [remove_trailing_whitespace]. *)
Definition drop (_ : match_obj) : text := [].

(** The text the pieces came from. *)
Definition source (ps : list piece) : text :=
  flat_map (fun p => match p with Keep c => [c] | Found m => matched m end) ps.

(** The matches among the pieces. *)
Fixpoint hits (ps : list piece) : list match_obj :=
  match ps with
  | [] => []
  | Keep _ :: ps' => hits ps'
  | Found m :: ps' => m :: hits ps'
  end.

(** The stretches of kept text around the matches: one in front of each
    match and one behind the last. *)
Fixpoint gaps (ps : list piece) : list text :=
  match ps with
  | [] => [[]]
  | Keep c :: ps' =>
      match gaps ps' with
      | g :: gs => (c :: g) :: gs
      | [] => [[c]]
      end
  | Found _ :: ps' => [] :: gaps ps'
  end.

(** Gaps and inserted texts put together in turn. *)
Fixpoint interleave (gs : list text) (incs : list text) : text :=
  match gs with
  | [] => []
  | g :: gs' =>
      match incs with
      | [] => g ++ concat gs'
      | inc :: incs' => g ++ inc ++ interleave gs' incs'
      end
  end.

(** The character just behind the end of [m], for a text that starts after [b]. *)
Definition behind_after (b : option ascii) (m : text) : option ascii :=
  fold_left (fun _ c => Some c) m b.

Definition is_backslash (b : option ascii) : bool :=
  match b with
  | Some c => Ascii.eqb c backslash
  | None => false
  end.

(** The match object of the first acceptable end position. *)
Definition first_match (must_advance : bool) (ks : list cursor) : option match_obj :=
  match filter (fun k => negb must_advance || negb (Nat.eqb (length (eaten k)) 0)) ks with
  | k :: _ => Some (Match (rev (eaten k)) (groups k))
  | [] => None
  end.

(** ** Runs of characters *)

Fixpoint take_while (p : ascii -> bool) (s : text) : text :=
  match s with
  | [] => []
  | c :: s' => if p c then c :: take_while p s' else []
  end.

Fixpoint drop_while (p : ascii -> bool) (s : text) : text :=
  match s with
  | [] => []
  | c :: s' => if p c then drop_while p s' else s
  end.

(** The text starts with a character of the class. *)
Definition head_in (p : ascii -> bool) (s : text) : bool :=
  match s with
  | [] => false
  | c :: _ => p c
  end.

Definition nonempty (s : text) : bool :=
  match s with
  | [] => false
  | _ :: _ => true
  end.

(** ** Lines *)

(** A text is its lines joined by newline characters. *)
Fixpoint unlines (ls : list text) : text :=
  match ls with
  | [] => []
  | l :: ls' =>
      match ls' with
      | [] => l
      | _ :: _ => l ++ newline :: unlines ls'
      end
  end.

(** The lines of a text: the stretches between its newline characters. *)
Fixpoint lines (s : text) : list text :=
  match s with
  | [] => [[]]
  | c :: s' =>
      if Ascii.eqb c newline then [] :: lines s'
      else match lines s' with
           | l :: ls => (c :: l) :: ls
           | [] => [[c]]
           end
  end.

(** A line holds no newline. *)
Definition one_line (l : text) : bool := forallb any_but_newline l.

(** [$] under [re.M] holds at the end of the text and in front of a newline. *)
Definition line_end (rest : text) : bool :=
  match rest with
  | [] => true
  | c :: _ => Ascii.eqb c newline
  end.

(** ** Comments *)

(** The part of a line in front of its first comment marker that no backslash
    immediately precedes.  [escaped] tells whether the character just before
    the line's remainder is a backslash. *)
Fixpoint before_comment (escaped : bool) (line : text) : text :=
  match line with
  | [] => []
  | c :: line' =>
      if Ascii.eqb c percent && negb escaped then []
      else c :: before_comment (Ascii.eqb c backslash) line'
  end.

Definition strip_line (line : text) : text := before_comment false line.

(** ** Trailing white space *)

(** A line without the spaces and tabs at its end. *)
Definition rstrip_line (line : text) : text :=
  rev (drop_while space_or_tab (rev line)).

Definition starts_blank (rest : text) : bool := head_in space_or_tab rest.

Definition ends_blank (l : text) : bool := starts_blank (rev l).

(** ** Macro substitution *)

(** What follows an occurrence of a macro name, without the one backslash
    that may come right behind the name. *)
Definition after_backslash (s : text) : text :=
  match s with
  | [] => []
  | c :: s' => if Ascii.eqb backslash c then s' else s
  end.

(** The backslash a match takes along, if there is one. *)
Definition trailing_backslash (s : text) : text :=
  match s with
  | [] => []
  | c :: _ => if Ascii.eqb backslash c then [c] else []
  end.

(** [Substituted name content s out]: [out] is [s] read from left to right
    with every occurrence of [name] met on the way, and the backslash right
    behind it if there is one, replaced by [content]; reading goes on behind
    the replaced text. *)
Inductive Substituted (name content : text) : text -> text -> Prop :=
| Substituted_end :
    Substituted name content [] []
| Substituted_here rest out :
    Substituted name content (after_backslash rest) out ->
    Substituted name content (name ++ rest) (content ++ out)
| Substituted_next c s out :
    starts_with name (c :: s) = false ->
    Substituted name content s out ->
    Substituted name content (c :: s) (c :: out).

(** One pass per entry of the table, each over the result of the one before. *)
Inductive SubstitutedAll : list (text * text) -> text -> text -> Prop :=
| SubstitutedAll_nil s :
    SubstitutedAll [] s s
| SubstitutedAll_cons name content macros s s1 out :
    Substituted name content s s1 ->
    SubstitutedAll macros s1 out ->
    SubstitutedAll ((name, content) :: macros) s out.

(** [name] occurs somewhere in [s]. *)
Fixpoint occurs (name s : text) : bool :=
  starts_with name s ||
  match s with
  | [] => false
  | _ :: s' => occurs name s'
  end.

(** ** Directives *)

(** An inclusion directive found in a text: the command, the file name
    given, and the stretch of text the directive takes up. *)
Record directive : Type := Directive {
  d_command : text;
  d_filename : text;
  d_text : text
}.

(** The directive with command [cmd] at the very start of [s], if there is
    one: a backslash, the command, any number of spaces, any number of
    opening braces, a file name of one or more word characters, slashes,
    hyphens and dots, and one closing character, which is a closing brace, a
    percent sign or white space. *)
Definition directive_with (cmd s : text) : option directive :=
  match s with
  | [] => None
  | c :: s1 =>
      if Ascii.eqb backslash c && starts_with cmd s1 then
        let s2 := skipn (length cmd) s1 in
        let blanks := take_while is_blank s2 in
        let s3 := drop_while is_blank s2 in
        let braces := take_while is_lbrace s3 in
        let s4 := drop_while is_lbrace s3 in
        let fname := take_while filename_char s4 in
        match fname, drop_while filename_char s4 with
        | _ :: _, t :: _ =>
            if closing_char t
            then Some (Directive cmd fname
                         (c :: cmd ++ blanks ++ braces ++ fname ++ [t]))
            else None
        | _, _ => None
        end
      else None
  end.

(** The directive at the very start of [s]: an [\input] or an [\include]. *)
Definition directive_at (s : text) : option directive :=
  match directive_with (T "input") s with
  | Some d => Some d
  | None => directive_with (T "include") s
  end.

(** The match object of a directive. *)
Definition directive_match (d : directive) : match_obj :=
  Match (d_text d)
        [("filename"%string, d_filename d); ("command"%string, d_command d)].

(** A directive starts somewhere in [s]. *)
Fixpoint has_directive (s : text) : bool :=
  match s with
  | [] => false
  | _ :: s' =>
      match directive_at s with
      | Some _ => true
      | None => has_directive s'
      end
  end.

(** [l'] is [l] without an end that starts with a closing character. *)
Definition cut_line (l l' : text) : Prop :=
  exists w, l = l' ++ w /\ (w = [] \/ head_in closing_char w = true).

(** The parts of the input pattern, from the right. *)
Definition filename_part : regex :=
  Cat (Named "filename" (Rep1 filename_char)) (Cls closing_char).
Definition braces_part : regex := Cat (RepLazy is_lbrace) filename_part.
Definition blanks_part : regex := Cat (RepLazy is_blank) braces_part.

(** The end positions of the input pattern for one of its two commands,
    behind the backslash [c]. *)
Definition ends_with_command (cmd : text) (c : ascii) (s1 : text) : list cursor :=
  if starts_with cmd s1
  then run blanks_part
         (Cursor (behind_after (Some c) cmd) (skipn (length cmd) s1)
                 (rev cmd ++ [c]) [("command"%string, cmd)])
  else [].

(** ** Resolution *)

Section ResolverSpec.

Variable open_read : text -> result text.
Variable path_join : text -> text -> text.
Variable abspath : text -> text.
Variable dirname : text -> text.

(** The file a directive with the captured name [fname] stands for: the name
    gets the suffix [.tex] unless it ends in it, and is joined to the root
    directory and made absolute. *)
Definition target (root fname : text) : text :=
  abspath (path_join root
             (if endswith fname (T ".tex") then fname else fname ++ T ".tex")).

(** [Resolves root path out]: [out] is the content of the file at [path],
    without comments and trailing white space, in which every directive found
    is replaced by what its target resolves to, under the same [root].
    [Expands root ps out] is the same for the pieces of a scanned text. *)
Inductive Resolves (root : text) : text -> text -> Prop :=
| Resolves_file path content out :
    open_read path = Return content ->
    Expands root
      (finditer input_include_pattern
         (remove_trailing_whitespace (remove_comments content))) out ->
    Resolves root path out
with Expands (root : text) : list piece -> text -> Prop :=
| Expands_nil :
    Expands root [] []
| Expands_keep c ps out :
    Expands root ps out ->
    Expands root (Keep c :: ps) (c :: out)
| Expands_found m fname ps inc out :
    group m "filename" = Some fname ->
    Resolves root (target root fname) inc ->
    Expands root ps out ->
    Expands root (Found m :: ps) (inc ++ out).

Scheme Resolves_mutual := Minimality for Resolves Sort Prop
  with Expands_mutual := Minimality for Expands Sort Prop.

(** [Reads root path f]: resolving the file at [path] asks for the file [f],
    which is [path] itself or a file asked for by the target of one of the
    directives found in [path]. *)
Inductive Reads (root : text) : text -> text -> Prop :=
| Reads_self path :
    Reads root path path
| Reads_include path content m fname f :
    open_read path = Return content ->
    In (Found m)
       (finditer input_include_pattern
          (remove_trailing_whitespace (remove_comments content))) ->
    group m "filename" = Some fname ->
    Reads root (target root fname) f ->
    Reads root path f.

(** The handler of [_sub_line] catches an [IOError] and nothing else. *)
Definition is_IOError (e : exn) : bool :=
  match e with
  | IOError _ => true
  | _ => false
  end.

(** What the handler of the directive for the file [full_path] logs when the
    exception [e] comes out of that file. *)
Definition handler_log (e : exn) (full_path : text) : list text :=
  if is_IOError e then [cannot_open full_path] else [].

(** [Fails root path f e log]: resolving the file at [path] ends in the
    exception [e] that reading the file [f] raised, with [log] logged.
    Either [f] is [path] itself, and nothing is logged, or [f] fails in the
    target of the first directive of [path] that does not resolve, and the
    handler of that directive adds its record behind what was logged in the
    target. *)
Inductive Fails (root : text) : text -> text -> exn -> list text -> Prop :=
| Fails_read path e :
    open_read path = Raise e ->
    Fails root path path e []
| Fails_include path content pre m rest fname f e log :
    open_read path = Return content ->
    finditer input_include_pattern
      (remove_trailing_whitespace (remove_comments content))
    = pre ++ Found m :: rest ->
    (forall m', In (Found m') pre ->
       exists fname' inc,
         group m' "filename" = Some fname'
         /\ Resolves root (target root fname') inc) ->
    group m "filename" = Some fname ->
    Fails root (target root fname) f e log ->
    Fails root path f e (log ++ handler_log e (target root fname)).

(** The root directory of a call of [read_tex_file]. *)
Definition root_of (root_filepath : text) (root_dir : option text) : text :=
  match root_dir with
  | None => dirname root_filepath
  | Some dir => dir
  end.

End ResolverSpec.

(** ** A file system for the examples *)

Definition text_eqb (a b : text) : bool :=
  String.eqb (string_of_list_ascii a) (string_of_list_ascii b).

(** [os.path.join] of POSIX for two parts. *)
Definition posix_join (a b : text) : text :=
  if starts_with (T "/") b then b
  else if nonempty a && negb (endswith a (T "/")) then a ++ T "/" ++ b
  else a ++ b.

(** The examples only use absolute paths without [.], [..] or doubled
    slashes, which [os.path.abspath] returns as they are. *)
Definition plain_abspath (p : text) : text := p.

(** [os.path.dirname] for such paths: the part in front of the last slash. *)
Fixpoint last_slash (p : text) : option text :=
  match p with
  | [] => None
  | c :: p' =>
      match last_slash p' with
      | Some d => Some (c :: d)
      | None => if Ascii.eqb c "/"%char then Some [] else None
      end
  end.

Definition plain_dirname (p : text) : text :=
  match last_slash p with
  | Some [] => T "/"
  | Some d => d
  | None => []
  end.

(** A project.  [main.tex] includes [parts/a], which includes [b]; [b.tex]
    lies in the root directory.  [plain.tex] has its only directive in a
    comment.  [bad.tex] includes a file that includes a missing one.
    [splice.tex] includes [cmd], which holds the beginning of a directive.
    [figure.tex] includes [binary.tex], which opens but does not decode.
    Any other file cannot be opened. *)
Definition project (path : text) : result text :=
  if text_eqb path (T "/proj/main.tex")
  then Return (T "pre \input{parts/a} % c" ++ newline :: T "end")
  else if text_eqb path (T "/proj/parts/a.tex") then Return (T "A[\include{b.tex}]")
  else if text_eqb path (T "/proj/b.tex") then Return (T "B  " ++ [newline])
  else if text_eqb path (T "/proj/plain.tex")
  then Return (T "no directive \% here % \input{a}  " ++ newline :: T "end ")
  else if text_eqb path (T "/proj/bad.tex") then Return (T "\input{parts/c}")
  else if text_eqb path (T "/proj/parts/c.tex") then Return (T "x \input{missing} y")
  else if text_eqb path (T "/proj/splice.tex") then Return (T "\input{cmd}{b} ")
  else if text_eqb path (T "/proj/cmd.tex") then Return (T "\input")
  else if text_eqb path (T "/proj/figure.tex") then Return (T "see \input{binary} ")
  else if text_eqb path (T "/proj/binary.tex") then Raise UnicodeDecodeError
  else Raise (IOError path).


(** ** Consoles for the examples *)

(** A console is the list of the lines written to [sys.stdout].  No handler
    takes debug records, as when logging is not configured. *)
Definition no_debug (out : list text) (record : text) : list text := out.

(** A stream that takes every line. *)
Definition every_print (out : list text) (line : text) : list text * option exn :=
  (out ++ [line], None).

(** A stream with the encoding ASCII: a line with a character above 127 is
    not written, [print] raises [UnicodeEncodeError]. *)
Definition is_ascii (c : ascii) : bool := code c <? 128.

Definition ascii_print (out : list text) (line : text) : list text * option exn :=
  if forallb is_ascii line then (out ++ [line], None)
  else (out, Some UnicodeEncodeError).

(** A closed stream: [print] raises [ValueError]. *)
Definition closed_print (out : list text) (line : text) : list text * option exn :=
  (out, Some ValueError).

(** The letter e with an acute accent, code point 233. *)
Definition e_acute : ascii := "233"%char.

(** ** The single patterns *)

(** A match object with the group [command] closed before its other groups. *)
Definition with_command (cmd : text) (m : match_obj) : match_obj :=
  Match (matched m) (named m ++ [("command"%string, cmd)]).

(** The match object of a directive for a pattern without the group
    [command]. *)
Definition filename_match (d : directive) : match_obj :=
  Match (d_text d) [("filename"%string, d_filename d)].

(** ** An empty macro name *)

(** [content] put in front of every character of [s] and at its end, each
    backslash of [s] giving way to it. *)
Fixpoint interleaved (content s : text) : text :=
  match s with
  | [] => content
  | c :: s' =>
      if Ascii.eqb backslash c then content ++ interleaved content s'
      else content ++ c :: interleaved content s'
  end.

(** ** Files that include one another *)

Section IncludeGraph.

Variable open_read : text -> result text.
Variable path_join : text -> text -> text.
Variable abspath : text -> text.

(** [Includes root p q]: a directive found in the file [p] has the file [q]
    for its target. *)
Definition Includes (root p q : text) : Prop :=
  exists content m fname,
    open_read p = Return content
    /\ In (Found m)
         (finditer input_include_pattern
            (remove_trailing_whitespace (remove_comments content)))
    /\ group m "filename" = Some fname
    /\ q = target path_join abspath root fname.

(** [q] is reached from [p] through one include or more. *)
Inductive IncludesPlus (root : text) : text -> text -> Prop :=
| IncludesPlus_one p q :
    Includes root p q -> IncludesPlus root p q
| IncludesPlus_more p q r :
    Includes root p q -> IncludesPlus root q r -> IncludesPlus root p r.

(** [chain] is a way down from [p]: [p] includes its first file, and each
    file of it includes the next. *)
Fixpoint Chain (root p : text) (chain : list text) : Prop :=
  match chain with
  | [] => True
  | q :: chain' => Includes root p q /\ Chain root q chain'
  end.

End IncludeGraph.

(** A project with includes that come back: [loop.tex] includes itself, and
    [ping.tex] and [pong.tex] include each other. *)
Definition looping (path : text) : result text :=
  if text_eqb path (T "/proj/loop.tex") then Return (T "a \input{loop} b")
  else if text_eqb path (T "/proj/ping.tex") then Return (T "see \input{b} \input{pong} ")
  else if text_eqb path (T "/proj/pong.tex") then Return (T "\include{ping.tex}")
  else if text_eqb path (T "/proj/b.tex") then Return (T "B")
  else Raise (IOError path).

(** ** Texts without comments *)

(** No comment marker of [s] is taken for the start of a comment: each [%]
    has a backslash right in front of it.  [b] is the character in front of
    the text. *)
Fixpoint comment_free (b : option ascii) (s : text) : bool :=
  match s with
  | [] => true
  | c :: s' =>
      negb (Ascii.eqb c percent && negb (is_backslash b)) && comment_free (Some c) s'
  end.

(** * Properties *)

(** ** The scan *)

Lemma re_sub_render r repl s : re_sub r repl s = render repl (scan r None s 0).
Proof. reflexivity. Qed.

Lemma render_keep repl c ps : render repl (Keep c :: ps) = c :: render repl ps.
Proof. reflexivity. Qed.

Lemma render_found repl m ps : render repl (Found m :: ps) = repl m ++ render repl ps.
Proof. reflexivity. Qed.

Lemma behind_after_cons b c m : behind_after b (c :: m) = behind_after (Some c) m.
Proof. reflexivity. Qed.

(** Passing over the characters of a match leads to the position behind it. *)
Lemma scan_skip r m : forall b s,
  scan r b (m ++ s) (length m) = scan r (behind_after b m) s 0.
Proof.
  induction m as [|c m IH]; intros b s.
  - reflexivity.
  - simpl. apply IH.
Qed.

(** Where nothing matches, the character is kept. *)
Lemma scan_keep r b c s :
  match_at r b (c :: s) false = None ->
  scan r b (c :: s) 0 = Keep c :: scan r (Some c) s 0.
Proof. intros H. simpl. rewrite H. reflexivity. Qed.

(** A match that is not empty is found, and the scan goes on behind it. *)
Lemma scan_found r b c m s mo :
  match_at r b (c :: m ++ s) false = Some mo ->
  matched mo = c :: m ->
  scan r b (c :: m ++ s) 0 = Found mo :: scan r (behind_after (Some c) m) s 0.
Proof.
  intros H Hm. cbn [scan]. rewrite H, Hm. cbn [length].
  rewrite scan_skip. reflexivity.
Qed.

Lemma scan_end r b :
  match_at r b [] false = None -> scan r b [] 0 = [].
Proof. intros H. simpl. rewrite H. reflexivity. Qed.

(** ** Lines *)

Lemma lines_not_nil s : lines s <> [].
Proof.
  destruct s as [|c s]; simpl; [discriminate|].
  destruct (Ascii.eqb c newline); [discriminate|].
  destruct (lines s); discriminate.
Qed.

Lemma unlines_cons l ls :
  ls <> [] -> unlines (l :: ls) = l ++ newline :: unlines ls.
Proof. destruct ls; [congruence|reflexivity]. Qed.

Lemma unlines_lines s : unlines (lines s) = s.
Proof.
  induction s as [|c s IH]; [reflexivity|].
  cbn [lines]. destruct (Ascii.eqb_spec c newline) as [->|Hc].
  - rewrite unlines_cons by apply lines_not_nil. rewrite IH. reflexivity.
  - destruct (lines s) as [|l ls] eqn:E; [destruct (lines_not_nil _ E)|].
    destruct ls as [|l2 ls].
    + simpl in *. f_equal. exact IH.
    + rewrite unlines_cons by discriminate.
      rewrite unlines_cons in IH by discriminate.
      simpl. f_equal. exact IH.
Qed.

Lemma lines_one_line s : forallb one_line (lines s) = true.
Proof.
  induction s as [|c s IH]; [reflexivity|].
  cbn [lines]. destruct (Ascii.eqb c newline) eqn:Hc.
  - simpl. exact IH.
  - destruct (lines s) as [|l ls]; simpl in *.
    + unfold any_but_newline. rewrite Hc. reflexivity.
    + unfold any_but_newline at 1. rewrite Hc. exact IH.
Qed.

(** A pattern whose matches stay inside a line, and which removes them, acts
    on every line by itself. *)
Section LineWise.

Variable r : regex.
Variable f : text -> text.

Hypothesis on_line : forall l b rest,
  is_backslash b = false -> one_line l = true -> line_end rest = true ->
  render drop (scan r b (l ++ rest) 0)
  = f l ++ render drop (scan r (behind_after b l) rest 0).
Hypothesis on_newline : forall b s, match_at r b (newline :: s) false = None.
Hypothesis on_end : forall b, match_at r b [] false = None.

Lemma line_wise_from ls : forall b,
  is_backslash b = false -> forallb one_line ls = true ->
  render drop (scan r b (unlines ls) 0) = unlines (map f ls).
Proof.
  induction ls as [|l ls IH]; intros b Hb Hls.
  - cbn [unlines map]. rewrite scan_end by apply on_end. reflexivity.
  - simpl in Hls. apply andb_true_iff in Hls as [Hl Hls].
    destruct ls as [|l2 ls].
    + cbn [unlines map]. rewrite <- (app_nil_r l) at 1.
      rewrite on_line by (assumption || reflexivity).
      rewrite scan_end by apply on_end. apply app_nil_r.
    + rewrite unlines_cons by discriminate.
      rewrite on_line by (assumption || reflexivity).
      rewrite scan_keep by apply on_newline.
      rewrite render_keep, IH by (assumption || reflexivity).
      cbn [map]. rewrite (unlines_cons (f l)) by discriminate. reflexivity.
Qed.

Lemma line_wise ls :
  forallb one_line ls = true ->
  render drop (scan r None (unlines ls) 0) = unlines (map f ls).
Proof. apply line_wise_from. reflexivity. Qed.

End LineWise.

(** ** The matcher keeps the text *)

Lemma rep_greedy_text p s : forall b e g k,
  In k (rep_greedy p b s e g) -> rev (eaten k) ++ ahead k = rev e ++ s.
Proof.
  induction s as [|a s IH]; intros b e g k H.
  - destruct H as [<-|[]]. reflexivity.
  - cbn [rep_greedy] in H. destruct (p a).
    + apply in_app_or in H as [H|[<-|[]]]; [|reflexivity].
      rewrite (IH _ _ _ _ H). cbn [rev]. rewrite <- app_assoc. reflexivity.
    + destruct H as [<-|[]]. reflexivity.
Qed.

Lemma rep_lazy_text p s : forall b e g k,
  In k (rep_lazy p b s e g) -> rev (eaten k) ++ ahead k = rev e ++ s.
Proof.
  induction s as [|a s IH]; intros b e g k H.
  - destruct H as [<-|[]]. reflexivity.
  - cbn [rep_lazy] in H. destruct H as [<-|H]; [reflexivity|].
    destruct (p a); [|destruct H].
    rewrite (IH _ _ _ _ H). cbn [rev]. rewrite <- app_assoc. reflexivity.
Qed.

Lemma eat_if_text p k k' :
  In k' (eat_if p k) -> rev (eaten k') ++ ahead k' = rev (eaten k) ++ ahead k.
Proof.
  unfold eat_if. destruct (ahead k) as [|a s]; [intros []|].
  destruct (p a); [|intros []]. intros [<-|[]].
  cbn [eaten ahead rev]. rewrite <- app_assoc. reflexivity.
Qed.

(** Whatever way a pattern matches, the text eaten and the text ahead make
    up the text there was. *)
Lemma run_text r : forall k k',
  In k' (run r k) -> rev (eaten k') ++ ahead k' = rev (eaten k) ++ ahead k.
Proof.
  induction r as [|c|p|r1 IH1 r2 IH2|r1 IH1 r2 IH2|p|p|p|r IH|c| |name r IH];
    intros k k' H; cbn [run] in H.
  - destruct H as [<-|[]]. reflexivity.
  - eapply eat_if_text, H.
  - eapply eat_if_text, H.
  - apply in_flat_map in H as [k1 [H1 H2]].
    rewrite (IH2 _ _ H2). apply IH1, H1.
  - apply in_app_or in H as [H|H]; [apply IH1, H|apply IH2, H].
  - eapply rep_greedy_text, H.
  - eapply rep_lazy_text, H.
  - apply in_flat_map in H as [k1 [H1 H2]].
    rewrite (rep_greedy_text _ _ _ _ _ _ H2). eapply eat_if_text, H1.
  - apply in_app_or in H as [H|[<-|[]]]; [apply IH, H|reflexivity].
  - assert (Hk : k' = k).
    { destruct (behind k) as [b|]; [destruct (Ascii.eqb b c)|];
        simpl in H; intuition. }
    subst k'. reflexivity.
  - assert (Hk : k' = k).
    { destruct (ahead k) as [|a s]; [|destruct (Ascii.eqb a newline)];
        simpl in H; intuition. }
    subst k'. reflexivity.
  - apply in_map_iff in H as [k1 [<- H1]]. apply IH in H1.
    cbn [eaten ahead rev app] in H1 |- *.
    rewrite rev_app_distr, <- app_assoc, H1. reflexivity.
Qed.

(** A match is a prefix of the text it was found in. *)
Lemma match_at_prefix r b s adv m :
  match_at r b s adv = Some m -> exists rest, s = matched m ++ rest.
Proof.
  unfold match_at.
  destruct (filter _ (run r (Cursor b s [] []))) as [|k ks] eqn:E; [discriminate|].
  intros H. injection H as <-. exists (ahead k). cbn [matched].
  assert (Hk : In k (run r (Cursor b s [] []))).
  { eapply proj1. apply filter_In. rewrite E. left. reflexivity. }
  apply run_text in Hk. exact (eq_sym Hk).
Qed.

Lemma match_at_advance r b s m :
  match_at r b s true = Some m -> matched m <> [].
Proof.
  unfold match_at.
  destruct (filter _ (run r (Cursor b s [] []))) as [|k ks] eqn:E; [discriminate|].
  intros H. injection H as <-. cbn [matched].
  assert (Hk : In k (filter (fun k => negb true || negb (length (eaten k) =? 0))
                        (run r (Cursor b s [] [])))).
  { rewrite E. left. reflexivity. }
  apply filter_In in Hk as [_ Hk]. cbn [negb orb] in Hk.
  apply negb_true_iff, Nat.eqb_neq in Hk.
  intros Hn. apply Hk. rewrite <- (length_rev (eaten k)), Hn. reflexivity.
Qed.

(** The pieces of a scan make up the text scanned. *)
Lemma scan_source r s : forall b k,
  k <= length s -> source (scan r b s k) = skipn k s.
Proof.
  induction s as [|c s IH]; intros b k Hk.
  - destruct k; [|simpl in Hk; lia]. cbn [scan skipn].
    destruct (match_at r b [] false) as [m|] eqn:E; [|reflexivity].
    apply match_at_prefix in E as [rest E].
    symmetry in E. apply app_eq_nil in E as [E _].
    unfold source. cbn [flat_map]. rewrite E. reflexivity.
  - destruct k as [|k].
    + cbn [scan skipn].
      destruct (match_at r b (c :: s) false) as [m|] eqn:E.
      * pose proof (match_at_prefix _ _ _ _ _ E) as [rest Hm].
        destruct (matched m) as [|c' m'] eqn:Em.
        -- cbn [length].
           destruct (match_at r b (c :: s) true) as [m2|] eqn:E2.
           ++ pose proof (match_at_prefix _ _ _ _ _ E2) as [rest2 Hm2].
              pose proof (match_at_advance _ _ _ _ E2) as Hne.
              destruct (matched m2) as [|c2 m2'] eqn:Em2; [congruence|].
              cbn [app] in Hm2. injection Hm2 as <- Hs.
              unfold source. cbn [flat_map]. fold (source (scan r (Some c) s (pred (length (c :: m2'))))).
              rewrite Em, Em2. cbn [length pred app].
              rewrite IH by (rewrite Hs, length_app; lia).
              rewrite Hs, skipn_app, skipn_all, Nat.sub_diag. reflexivity.
           ++ unfold source. cbn [flat_map]. fold (source (scan r (Some c) s 0)).
              rewrite Em, IH by lia. reflexivity.
        -- cbn [app] in Hm. injection Hm as <- Hs. cbn [length].
           unfold source. cbn [flat_map]. fold (source (scan r (Some c) s (length m'))).
           rewrite Em. cbn [app].
           rewrite IH by (rewrite Hs, length_app; lia).
           rewrite Hs, skipn_app, skipn_all, Nat.sub_diag. reflexivity.
      * unfold source. cbn [flat_map]. fold (source (scan r (Some c) s 0)).
        rewrite IH by lia. reflexivity.
    + cbn [scan skipn]. apply IH. simpl in Hk. lia.
Qed.

Lemma finditer_source r s : source (finditer r s) = s.
Proof. unfold finditer. rewrite scan_source by lia. reflexivity. Qed.

(** ** The comment pattern *)

Lemma run_eol k : run EndOfLine k = if line_end (ahead k) then [k] else [].
Proof. destruct k as [b [|a s] e g]; reflexivity. Qed.

Lemma line_end_not_class p c s : p c = true -> p newline = false -> line_end (c :: s) = false.
Proof.
  intros Hc Hn. simpl. destruct (Ascii.eqb_spec c newline) as [->|]; congruence.
Qed.

(** [.*$] runs to the end of the line, and nowhere else. *)
Lemma rep_any_eol l : forall b e g rest,
  one_line l = true -> line_end rest = true ->
  flat_map (run EndOfLine) (rep_greedy any_but_newline b (l ++ rest) e g)
  = [Cursor (behind_after b l) rest (rev l ++ e) g].
Proof.
  induction l as [|a l IH]; intros b e g rest Hl Hr.
  - simpl. destruct rest as [|c rest].
    + reflexivity.
    + simpl in Hr. simpl. unfold any_but_newline. rewrite Hr. simpl.
      rewrite Hr. reflexivity.
  - simpl in Hl. apply andb_true_iff in Hl as [Ha Hl].
    cbn [app rep_greedy]. rewrite Ha. rewrite flat_map_app, IH by assumption.
    cbn [flat_map]. rewrite run_eol. cbn [ahead].
    rewrite (line_end_not_class any_but_newline a (l ++ rest) Ha eq_refl).
    cbn [rev behind_after fold_left app]. rewrite <- app_assoc. reflexivity.
Qed.

Lemma comment_match_here b l rest adv :
  is_backslash b = false -> one_line l = true -> line_end rest = true ->
  match_at comment_pattern b (percent :: l ++ rest) adv
  = Some (Match (percent :: l) []).
Proof.
  intros Hb Hl Hr. unfold match_at, comment_pattern.
  cbn [run behind ahead eaten groups].
  assert (Hn : (match b with
                | Some b0 => if Ascii.eqb b0 backslash then [] else [Cursor b (percent :: l ++ rest) [] []]
                | None => [Cursor b (percent :: l ++ rest) [] []]
                end) = [Cursor b (percent :: l ++ rest) [] []]).
  { destruct b as [b0|]; [|reflexivity]. simpl in Hb. rewrite Hb. reflexivity. }
  rewrite Hn. cbn [flat_map eat_if ahead eaten groups].
  rewrite Ascii.eqb_refl. cbn [flat_map behind ahead eaten groups].
  rewrite rep_any_eol by assumption.
  cbn [app filter eaten groups]. rewrite length_app. cbn [length].
  replace (length (rev l) + 1 =? 0) with false by (symmetry; apply Nat.eqb_neq; lia).
  rewrite orb_true_r. cbn [eaten groups].
  rewrite rev_app_distr, rev_involutive. reflexivity.
Qed.

Lemma comment_match_escaped b s adv :
  is_backslash b = true -> match_at comment_pattern b s adv = None.
Proof.
  intros Hb. destruct b as [b0|]; [|discriminate]. simpl in Hb.
  unfold match_at, comment_pattern. cbn [run behind]. rewrite Hb. reflexivity.
Qed.

Lemma comment_match_other b c s adv :
  Ascii.eqb c percent = false -> match_at comment_pattern b (c :: s) adv = None.
Proof.
  intros Hc. unfold match_at, comment_pattern. cbn [run behind].
  assert (He : Ascii.eqb percent c = false) by (rewrite Ascii.eqb_sym; exact Hc).
  destruct b as [b0|]; [destruct (Ascii.eqb b0 backslash)|];
    cbn [flat_map eat_if ahead]; rewrite ?He; reflexivity.
Qed.

Lemma comment_match_end b adv : match_at comment_pattern b [] adv = None.
Proof.
  unfold match_at, comment_pattern. cbn [run behind].
  destruct b as [b0|]; [destruct (Ascii.eqb b0 backslash)|]; reflexivity.
Qed.

(** ** [remove_comments], line by line *)

Lemma comment_scan_line l : forall b rest,
  one_line l = true -> line_end rest = true ->
  render drop (scan comment_pattern b (l ++ rest) 0)
  = before_comment (is_backslash b) l
    ++ render drop (scan comment_pattern (behind_after b l) rest 0).
Proof.
  induction l as [|c l IH]; intros b rest Hl Hr.
  - reflexivity.
  - pose proof Hl as Hl'. simpl in Hl'. apply andb_true_iff in Hl' as [Hc Hl'].
    cbn [before_comment app].
    destruct (Ascii.eqb c percent) eqn:Hp; [destruct (is_backslash b) eqn:Hb|].
    + cbn [andb negb]. rewrite scan_keep by (apply comment_match_escaped; exact Hb).
      rewrite render_keep, IH by assumption. reflexivity.
    + cbn [andb negb]. apply Ascii.eqb_eq in Hp. subst c.
      rewrite (scan_found comment_pattern b percent l rest _
                 (comment_match_here b l rest false Hb Hl' Hr) eq_refl).
      reflexivity.
    + cbn [andb]. rewrite scan_keep by (apply comment_match_other; exact Hp).
      rewrite render_keep, IH by assumption. reflexivity.
Qed.

Lemma remove_comments_unlines ls :
  forallb one_line ls = true ->
  remove_comments (unlines ls) = unlines (map strip_line ls).
Proof.
  intros Hls. unfold remove_comments. rewrite re_sub_render.
  apply line_wise; try assumption; try reflexivity.
  - intros l b rest Hb Hl Hr. rewrite comment_scan_line by assumption.
    rewrite Hb. reflexivity.
  - intros b s. apply comment_match_other. reflexivity.
  - intros b. apply comment_match_end.
Qed.

Lemma remove_comments_lines s :
  remove_comments s = unlines (map strip_line (lines s)).
Proof.
  rewrite <- (unlines_lines s) at 1.
  apply remove_comments_unlines, lines_one_line.
Qed.

(** What [before_comment] keeps is a prefix that ends at the first marker no
    backslash precedes. *)
Lemma before_comment_prefix l : forall b,
  exists tail,
    l = before_comment (is_backslash b) l ++ tail
    /\ (tail = [] \/
        exists t, tail = percent :: t
          /\ is_backslash (behind_after b (before_comment (is_backslash b) l)) = false).
Proof.
  induction l as [|c l IH]; intros b.
  - exists []. split; [reflexivity|left; reflexivity].
  - cbn [before_comment].
    destruct (Ascii.eqb c percent && negb (is_backslash b)) eqn:E.
    + apply andb_true_iff in E as [Hc Hb]. apply Ascii.eqb_eq in Hc. subst c.
      exists (percent :: l). split; [reflexivity|right].
      exists l. split; [reflexivity|].
      simpl. destruct (is_backslash b); [discriminate|reflexivity].
    + destruct (IH (Some c)) as [tail [Hl Ht]]. exists tail.
      cbn [is_backslash] in Hl, Ht. split.
      * cbn [app]. f_equal. exact Hl.
      * rewrite behind_after_cons. exact Ht.
Qed.

(** Every marker kept has a backslash right in front of it. *)
Lemma before_comment_escaped l : forall b p q,
  before_comment (is_backslash b) l = p ++ percent :: q ->
  is_backslash (behind_after b p) = true.
Proof.
  induction l as [|c l IH]; intros b p q H.
  - destruct p; discriminate.
  - cbn [before_comment] in H.
    destruct (Ascii.eqb c percent && negb (is_backslash b)) eqn:E.
    + destruct p; discriminate.
    + destruct p as [|c' p].
      * cbn [app] in H. injection H as Hc _. subst c.
        rewrite Ascii.eqb_refl in E. cbn [andb] in E.
        simpl. destruct (is_backslash b); [reflexivity|discriminate].
      * cbn [app] in H. injection H as Hc H. subst c'.
        rewrite behind_after_cons. apply (IH (Some c) p q). exact H.
Qed.

Lemma comment_scan_no_marker s : forall b,
  existsb (Ascii.eqb percent) s = false ->
  render drop (scan comment_pattern b s 0) = s.
Proof.
  induction s as [|c s IH]; intros b H.
  - rewrite scan_end by apply comment_match_end. reflexivity.
  - simpl in H. apply orb_false_iff in H as [Hc Hs].
    rewrite scan_keep by (apply comment_match_other; rewrite Ascii.eqb_sym; exact Hc).
    rewrite render_keep, IH by assumption. reflexivity.
Qed.

(** C6. The Comment Stripper works line by line: of every line it keeps the
    text in front of the first [%] that no backslash immediately precedes and
    removes that marker and the rest of the line; the newlines between the
    lines stay.  A [%] right behind a backslash starts no comment, so every
    [%] in the kept text is such an escaped one.  [a \% b % c] becomes
    [a \% b ] with its trailing space, and a text without any [%] is
    returned unchanged. *)
Theorem remove_comments_per_line :
  (forall s, unlines (lines s) = s /\ forallb one_line (lines s) = true)
  /\ (forall s, remove_comments s = unlines (map strip_line (lines s)))
  /\ (forall l, exists tail,
        l = strip_line l ++ tail
        /\ (tail = [] \/
            exists t, tail = percent :: t
              /\ is_backslash (behind_after None (strip_line l)) = false))
  /\ (forall l p q, strip_line l = p ++ percent :: q ->
        is_backslash (behind_after None p) = true)
  /\ remove_comments (T "a \% b % c") = T "a \% b "
  /\ (forall s, existsb (Ascii.eqb percent) s = false -> remove_comments s = s).
Proof.
  split; [|split; [|split; [|split; [|split]]]].
  - intros s. split; [apply unlines_lines|apply lines_one_line].
  - apply remove_comments_lines.
  - intros l. apply (before_comment_prefix l None).
  - intros l p q. apply (before_comment_escaped l None).
  - vm_compute. reflexivity.
  - intros s H. unfold remove_comments. rewrite re_sub_render.
    apply comment_scan_no_marker. exact H.
Qed.

Lemma remove_comments_per_line_witness :
  existsb (Ascii.eqb percent) (T "no marker here") = false
  /\ remove_comments (T "no marker here") = T "no marker here"
  /\ is_backslash (behind_after None (T "a \")) = true.
Proof.
  split; [reflexivity|]. split.
  - apply (proj2 (proj2 (proj2 (proj2 (proj2 remove_comments_per_line))))).
    reflexivity.
  - apply (proj1 (proj2 (proj2 (proj2 remove_comments_per_line)))
             (T "a \% b % c") (T "a \") (T " b ")).
    reflexivity.
Defined.

(** ** The trailing white space pattern *)

(** [[ \t]*$] from inside a run of blanks: the run has to reach the end of
    the line. *)
Lemma rep_blank_eol w : forall b e g rest,
  forallb space_or_tab w = true -> starts_blank rest = false ->
  flat_map (run EndOfLine) (rep_greedy space_or_tab b (w ++ rest) e g)
  = if line_end rest then [Cursor (behind_after b w) rest (rev w ++ e) g] else [].
Proof.
  induction w as [|a w IH]; intros b e g rest Hw Hr.
  - cbn [app]. destruct rest as [|c rest].
    + reflexivity.
    + simpl in Hr. cbn [rep_greedy]. rewrite Hr. cbn [flat_map].
      rewrite run_eol, app_nil_r. reflexivity.
  - simpl in Hw. apply andb_true_iff in Hw as [Ha Hw].
    cbn [app rep_greedy]. rewrite Ha, flat_map_app, IH by assumption.
    cbn [flat_map]. rewrite run_eol. cbn [ahead].
    rewrite (line_end_not_class space_or_tab a (w ++ rest) Ha eq_refl).
    cbn [rev behind_after fold_left app]. rewrite <- app_assoc, app_nil_r.
    reflexivity.
Qed.

Lemma trailing_match_run b c w rest adv :
  space_or_tab c = true -> forallb space_or_tab w = true ->
  starts_blank rest = false ->
  match_at trailing_pattern b (c :: w ++ rest) adv
  = if line_end rest then Some (Match (c :: w) []) else None.
Proof.
  intros Hc Hw Hr. unfold match_at, trailing_pattern.
  cbn [run eat_if ahead]. rewrite Hc.
  cbn [flat_map behind ahead eaten groups]. rewrite app_nil_r.
  rewrite rep_blank_eol by assumption.
  destruct (line_end rest); [|reflexivity].
  cbn [filter eaten]. rewrite length_app. cbn [length].
  replace (length (rev w) + 1 =? 0) with false by (symmetry; apply Nat.eqb_neq; lia).
  rewrite orb_true_r. cbn [eaten groups].
  rewrite rev_app_distr, rev_involutive. reflexivity.
Qed.

Lemma trailing_match_other b c s adv :
  space_or_tab c = false -> match_at trailing_pattern b (c :: s) adv = None.
Proof.
  intros Hc. unfold match_at, trailing_pattern.
  cbn [run eat_if ahead]. rewrite Hc. reflexivity.
Qed.

Lemma trailing_match_end b adv : match_at trailing_pattern b [] adv = None.
Proof. reflexivity. Qed.

(** ** [rstrip_line], from the left *)

Lemma drop_while_snoc p x c :
  drop_while p (x ++ [c])
  = if forallb p x then (if p c then [] else [c]) else drop_while p x ++ [c].
Proof.
  induction x as [|a x IH]; [reflexivity|].
  cbn [app drop_while forallb]. destruct (p a); [exact IH|reflexivity].
Qed.

Lemma forallb_rev p (x : text) : forallb p (rev x) = forallb p x.
Proof.
  induction x as [|a x IH]; [reflexivity|].
  cbn [rev forallb]. rewrite forallb_app, IH. cbn [forallb].
  rewrite andb_true_r. apply andb_comm.
Qed.

Lemma drop_while_all p x : forallb p x = true -> drop_while p x = [].
Proof.
  induction x as [|a x IH]; [reflexivity|]. cbn [forallb drop_while].
  intros H. apply andb_true_iff in H as [Ha Hx]. rewrite Ha. auto.
Qed.

Lemma rstrip_line_cons c l :
  rstrip_line (c :: l)
  = if space_or_tab c && forallb space_or_tab l then [] else c :: rstrip_line l.
Proof.
  unfold rstrip_line. cbn [rev]. rewrite drop_while_snoc, forallb_rev.
  destruct (forallb space_or_tab l) eqn:Hl.
  - rewrite andb_true_r. rewrite drop_while_all by (rewrite forallb_rev; exact Hl).
    destruct (space_or_tab c); reflexivity.
  - rewrite andb_false_r, rev_app_distr. reflexivity.
Qed.

(** A text is a run of blanks followed by a text that starts with none. *)
Lemma blank_run l :
  exists w l2, l = w ++ l2 /\ forallb space_or_tab w = true
               /\ starts_blank l2 = false.
Proof.
  induction l as [|c l [w [l2 [Hl [Hw Hl2]]]]].
  - exists [], []. repeat split.
  - destruct (space_or_tab c) eqn:Hc.
    + exists (c :: w), l2. subst l. repeat split; [|exact Hl2].
      simpl. rewrite Hc. exact Hw.
    + exists [], (c :: l). repeat split. exact Hc.
Qed.

Lemma line_end_starts_blank rest : line_end rest = true -> starts_blank rest = false.
Proof.
  destruct rest as [|c rest]; [reflexivity|]. simpl. intros H.
  apply Ascii.eqb_eq in H. subst c. reflexivity.
Qed.

(** ** [remove_trailing_whitespace], line by line *)

Lemma trailing_scan_line l : forall b rest,
  one_line l = true -> line_end rest = true ->
  render drop (scan trailing_pattern b (l ++ rest) 0)
  = rstrip_line l ++ render drop (scan trailing_pattern (behind_after b l) rest 0).
Proof.
  induction l as [|c l IH]; intros b rest Hl Hr.
  - reflexivity.
  - pose proof Hl as Hl'. simpl in Hl'. apply andb_true_iff in Hl' as [Hc Hl'].
    rewrite rstrip_line_cons. cbn [app].
    destruct (space_or_tab c) eqn:Hb.
    + destruct (blank_run l) as [w [l2 [El [Hw Hl2]]]].
      destruct l2 as [|d l2].
      * rewrite app_nil_r in El. subst w. rewrite Hw. cbn [andb].
        rewrite (scan_found trailing_pattern b c l rest (Match (c :: l) [])).
        -- reflexivity.
        -- rewrite trailing_match_run, Hr;
             auto using line_end_starts_blank.
        -- reflexivity.
      * assert (Hall : forallb space_or_tab l = false).
        { subst l. rewrite forallb_app. simpl in Hl2. simpl. rewrite Hl2.
          apply andb_false_r. }
        rewrite Hall, andb_false_r.
        assert (Hd : line_end ((d :: l2) ++ rest) = false).
        { subst l. unfold one_line in Hl'. rewrite forallb_app in Hl'.
          apply andb_true_iff in Hl' as [_ Hd]. simpl in Hd.
          apply andb_true_iff in Hd as [Hd _]. unfold any_but_newline in Hd.
          simpl. destruct (Ascii.eqb d newline); [discriminate|reflexivity]. }
        rewrite scan_keep.
        -- rewrite render_keep, IH by assumption. reflexivity.
        -- subst l. rewrite <- app_assoc.
           rewrite trailing_match_run, Hd by assumption. reflexivity.
    + cbn [andb]. rewrite scan_keep by (apply trailing_match_other; exact Hb).
      rewrite render_keep, IH by assumption. reflexivity.
Qed.

Lemma remove_trailing_whitespace_unlines ls :
  forallb one_line ls = true ->
  remove_trailing_whitespace (unlines ls) = unlines (map rstrip_line ls).
Proof.
  intros Hls. unfold remove_trailing_whitespace. rewrite re_sub_render.
  apply line_wise; try assumption.
  - intros l b rest _ Hl Hr. apply trailing_scan_line; assumption.
  - intros b s. apply trailing_match_other. reflexivity.
  - intros b. apply trailing_match_end.
Qed.

Lemma drop_while_split p x :
  exists w, x = w ++ drop_while p x /\ forallb p w = true.
Proof.
  induction x as [|a x [w [Hx Hw]]].
  - exists []. split; reflexivity.
  - cbn [drop_while]. destruct (p a) eqn:Ha.
    + exists (a :: w). split; [cbn [app]; f_equal; exact Hx|].
      simpl. rewrite Ha. exact Hw.
    + exists []. split; reflexivity.
Qed.

Lemma drop_while_starts x : starts_blank (drop_while space_or_tab x) = false.
Proof.
  induction x as [|a x IH]; [reflexivity|].
  cbn [drop_while]. destruct (space_or_tab a) eqn:Ha; [exact IH|].
  simpl. exact Ha.
Qed.

Lemma rstrip_line_suffix l :
  exists w, l = rstrip_line l ++ w
            /\ forallb space_or_tab w = true
            /\ ends_blank (rstrip_line l) = false.
Proof.
  destruct (drop_while_split space_or_tab (rev l)) as [w [Hl Hw]].
  exists (rev w). split; [|split].
  - unfold rstrip_line. rewrite <- rev_app_distr, <- Hl. symmetry. apply rev_involutive.
  - rewrite forallb_rev. exact Hw.
  - unfold ends_blank, rstrip_line. rewrite rev_involutive. apply drop_while_starts.
Qed.

(** C7. The Whitespace Trimmer works line by line: every line loses the
    spaces and tabs at its end, all of them and nothing else.  What is kept
    is the front of the line, unchanged, and it does not end in a space or
    tab; the newlines between the lines stay. *)
Theorem remove_trailing_whitespace_per_line :
  (forall s, unlines (lines s) = s /\ forallb one_line (lines s) = true)
  /\ (forall s,
        remove_trailing_whitespace s = unlines (map rstrip_line (lines s)))
  /\ (forall l, exists w,
        l = rstrip_line l ++ w
        /\ forallb space_or_tab w = true
        /\ ends_blank (rstrip_line l) = false)
  /\ remove_trailing_whitespace
       (T "  a  b  " ++ newline :: tab :: T " c" ++ tab :: T " " ++ [newline])
     = T "  a  b" ++ newline :: tab :: T " c" ++ [newline].
Proof.
  split; [|split; [|split]].
  - intros s. split; [apply unlines_lines|apply lines_one_line].
  - intros s. rewrite <- (unlines_lines s) at 1.
    apply remove_trailing_whitespace_unlines, lines_one_line.
  - apply rstrip_line_suffix.
  - vm_compute. reflexivity.
Qed.

(** ** The macro pattern *)

Lemma starts_with_app name rest : starts_with name (name ++ rest) = true.
Proof.
  induction name as [|a name IH]; [reflexivity|].
  simpl. rewrite Ascii.eqb_refl. exact IH.
Qed.

Lemma starts_with_split name : forall s,
  starts_with name s = true -> s = name ++ skipn (length name) s.
Proof.
  induction name as [|a name IH]; intros s H; [reflexivity|].
  destruct s as [|c s]; [discriminate|].
  simpl in H. apply andb_true_iff in H as [Hc H].
  apply Ascii.eqb_eq in Hc. subst c. simpl. f_equal. apply IH, H.
Qed.

(** A literal word matches where the text starts with it, and only there. *)
Lemma run_str name : forall b s e g,
  run (Str name) (Cursor b s e g)
  = if starts_with name s
    then [Cursor (behind_after b name) (skipn (length name) s) (rev name ++ e) g]
    else [].
Proof.
  induction name as [|a name IH]; intros b s e g; [reflexivity|].
  cbn [Str fold_right run]. fold (Str name).
  destruct s as [|c s]; [reflexivity|].
  cbn [eat_if ahead eaten groups starts_with].
  destruct (Ascii.eqb_spec a c) as [->|Hac]; [|reflexivity].
  cbn [flat_map andb]. rewrite IH, app_nil_r.
  destruct (starts_with name s); [|reflexivity].
  cbn [rev length skipn]. rewrite <- app_assoc. reflexivity.
Qed.

Lemma macro_run name b s :
  run (macro_pattern name) (Cursor b s [] [])
  = if starts_with name s
    then match skipn (length name) s with
         | [] => []
         | c :: rest =>
             if Ascii.eqb backslash c
             then [Cursor (Some c) rest (c :: rev name) []] else []
         end ++ [Cursor (behind_after b name) (skipn (length name) s) (rev name) []]
    else [].
Proof.
  unfold macro_pattern. cbn [run]. rewrite run_str.
  destruct (starts_with name s); [|reflexivity].
  cbn [flat_map run eat_if ahead eaten groups]. rewrite !app_nil_r.
  reflexivity.
Qed.

Lemma macro_match_none name b s adv :
  starts_with name s = false -> match_at (macro_pattern name) b s adv = None.
Proof.
  intros H. unfold match_at. rewrite macro_run, H. reflexivity.
Qed.

Lemma macro_match_here name b rest adv :
  nonempty name = true ->
  match_at (macro_pattern name) b (name ++ rest) adv
  = Some (Match (name ++ trailing_backslash rest) []).
Proof.
  intros Hn. unfold match_at. rewrite macro_run, starts_with_app.
  rewrite skipn_app, skipn_all, Nat.sub_diag. cbn [app skipn].
  assert (Hlen : (length (rev name) =? 0) = false).
  { apply Nat.eqb_neq. rewrite length_rev.
    destruct name; [discriminate|]. simpl. lia. }
  destruct rest as [|c rest].
  - cbn [app filter eaten trailing_backslash]. rewrite Hlen.
    rewrite orb_true_r. cbn [eaten groups]. rewrite rev_involutive, app_nil_r.
    reflexivity.
  - cbn [trailing_backslash]. destruct (Ascii.eqb backslash c).
    + cbn [app filter eaten length Nat.eqb]. rewrite orb_true_r.
      cbn [eaten groups rev]. rewrite rev_involutive. reflexivity.
    + cbn [app filter eaten]. rewrite Hlen. rewrite orb_true_r.
      cbn [eaten groups]. rewrite rev_involutive, app_nil_r. reflexivity.
Qed.

(** The macro pattern looks at nothing behind the position. *)
Lemma macro_match_behind name b b' s adv :
  match_at (macro_pattern name) b s adv = match_at (macro_pattern name) b' s adv.
Proof.
  unfold match_at. rewrite !macro_run.
  destruct (starts_with name s); [|reflexivity].
  destruct (skipn (length name) s) as [|c rest]; [|destruct (Ascii.eqb backslash c)];
    cbn [app filter eaten groups];
    repeat match goal with |- context [if ?x then _ else _] => destruct x end;
    reflexivity.
Qed.

Lemma scan_behind r :
  (forall b b' s adv, match_at r b s adv = match_at r b' s adv) ->
  forall s b b' k, scan r b s k = scan r b' s k.
Proof.
  intros H. induction s as [|c s IH]; intros b b' k.
  - destruct k; [|reflexivity]. simpl. rewrite (H b b'). reflexivity.
  - destruct k; [|reflexivity]. cbn [scan].
    rewrite (H b b' (c :: s) false), (H b b' (c :: s) true). reflexivity.
Qed.

Lemma trailing_backslash_after rest :
  rest = trailing_backslash rest ++ after_backslash rest.
Proof.
  destruct rest as [|c rest]; [reflexivity|].
  cbn [trailing_backslash after_backslash].
  destruct (Ascii.eqb backslash c); reflexivity.
Qed.

(** One step of the scan at an occurrence of the name. *)
Lemma macro_scan_here name content b rest :
  nonempty name = true ->
  render (fun _ => content) (scan (macro_pattern name) b (name ++ rest) 0)
  = content ++ render (fun _ => content)
                      (scan (macro_pattern name) None (after_backslash rest) 0).
Proof.
  intros Hn. destruct name as [|c name]; [discriminate|].
  pose proof (macro_match_here (c :: name) b rest false Hn) as Hm.
  rewrite (trailing_backslash_after rest) at 1.
  rewrite (trailing_backslash_after rest) in Hm at 1.
  cbn [app] in Hm |- *. rewrite app_assoc in Hm |- *.
  rewrite (scan_found _ _ _ _ _ _ Hm eq_refl), render_found.
  f_equal. f_equal. apply scan_behind. apply macro_match_behind.
Qed.

Lemma macro_scan_next name content b c s :
  starts_with name (c :: s) = false ->
  render (fun _ => content) (scan (macro_pattern name) b (c :: s) 0)
  = c :: render (fun _ => content) (scan (macro_pattern name) None s 0).
Proof.
  intros H. rewrite scan_keep by (apply macro_match_none; exact H).
  rewrite render_keep. f_equal. f_equal.
  apply scan_behind. apply macro_match_behind.
Qed.

(** ** One pass of the substituter *)

Lemma starts_with_nil_false name : nonempty name = true -> starts_with name [] = false.
Proof. destruct name; [discriminate|reflexivity]. Qed.

Lemma after_backslash_length rest : length (after_backslash rest) <= length rest.
Proof.
  destruct rest as [|c rest]; [apply le_n|].
  cbn [after_backslash]. destruct (Ascii.eqb backslash c); simpl; lia.
Qed.

Lemma macro_pass_substituted name content :
  nonempty name = true ->
  forall n s, length s <= n ->
    Substituted name content s (re_sub (macro_pattern name) (fun _ => content) s).
Proof.
  intros Hn. induction n as [|n IH]; intros s Hlen.
  - destruct s; [|simpl in Hlen; lia].
    rewrite re_sub_render, scan_end
      by (apply macro_match_none, starts_with_nil_false, Hn).
    constructor.
  - destruct s as [|c s].
    + rewrite re_sub_render, scan_end
        by (apply macro_match_none, starts_with_nil_false, Hn).
      constructor.
    + rewrite re_sub_render. destruct (starts_with name (c :: s)) eqn:E.
      * apply starts_with_split in E.
        set (rest := skipn (length name) (c :: s)) in E.
        assert (Hr : length rest < length (c :: s)).
        { pose proof (f_equal (@length ascii) E) as HL.
          rewrite length_app in HL. destruct name; [discriminate|].
          simpl in HL |- *. lia. }
        rewrite E, macro_scan_here by exact Hn.
        apply Substituted_here. rewrite <- re_sub_render. apply IH.
        pose proof (after_backslash_length rest). simpl in Hlen, Hr. lia.
      * rewrite macro_scan_next by exact E.
        apply Substituted_next; [exact E|].
        rewrite <- re_sub_render. apply IH. simpl in Hlen. lia.
Qed.

(** For a name that is not empty, [Substituted] leaves no choice. *)
Lemma Substituted_unique name content :
  nonempty name = true ->
  forall s o1, Substituted name content s o1 ->
  forall o2, Substituted name content s o2 -> o1 = o2.
Proof.
  intros Hn s o1 H1. induction H1 as [|rest out H1 IH|c s out Hc H1 IH]; intros o2 H2.
  - inversion H2 as [|rest' out' H' E|]; [reflexivity|].
    apply app_eq_nil in E as [E _]. subst name. discriminate.
  - remember (name ++ rest) as s eqn:Es.
    destruct H2 as [|rest' out' H2|c s out' Hc H2].
    + symmetry in Es. apply app_eq_nil in Es as [E _]. subst name. discriminate.
    + apply app_inv_head in Es. subst rest'. f_equal. apply IH, H2.
    + rewrite Es, starts_with_app in Hc. discriminate.
  - remember (c :: s) as s0 eqn:Es.
    destruct H2 as [|rest' out' H2|c' s' out' Hc' H2].
    + discriminate.
    + rewrite starts_with_app in Hc. discriminate.
    + injection Es as -> ->. f_equal. apply IH, H2.
Qed.

Lemma replace_macros_cons s name content macros :
  replace_macros s ((name, content) :: macros)
  = replace_macros (re_sub (macro_pattern name) (fun _ => content) s) macros.
Proof. reflexivity. Qed.

Lemma replace_macros_SubstitutedAll macros : forall s,
  forallb (fun e => nonempty (fst e)) macros = true ->
  SubstitutedAll macros s (replace_macros s macros).
Proof.
  induction macros as [|[name content] macros IH]; intros s H.
  - constructor.
  - simpl in H. apply andb_true_iff in H as [Hn H].
    rewrite replace_macros_cons.
    eapply SubstitutedAll_cons; [|apply IH, H].
    apply (macro_pass_substituted name content Hn (length s)). apply le_n.
Qed.

Lemma SubstitutedAll_unique macros : forall s out,
  forallb (fun e => nonempty (fst e)) macros = true ->
  SubstitutedAll macros s out -> out = replace_macros s macros.
Proof.
  induction macros as [|[name content] macros IH]; intros s out H Hs.
  - inversion Hs. reflexivity.
  - simpl in H. apply andb_true_iff in H as [Hn H].
    inversion Hs as [|name' content' macros' s' s1 out' H1 H2]; subst.
    rewrite replace_macros_cons.
    rewrite <- (Substituted_unique name content Hn s s1 H1 _
                  (macro_pass_substituted name content Hn (length s) s (le_n _))).
    apply IH; assumption.
Qed.

(** C3. For a table of named macros, [replace_macros] makes one pass per
    entry, each over the result of the pass before.  A pass reads the text
    from left to right and replaces every occurrence of the macro name it
    meets, compared character by character, together with the one backslash
    that may follow it, by the macro's content; the backslash is not put
    back.  Nothing else fits that description.  The two examples of the
    documentation come out as stated. *)
Theorem replace_macros_substitutes_names :
  (forall macros s,
     forallb (fun e => nonempty (fst e)) macros = true ->
     SubstitutedAll macros s (replace_macros s macros)
     /\ (forall out, SubstitutedAll macros s out -> out = replace_macros s macros))
  /\ replace_macros (T "This is document \handle.") [(T "\handle", T "LDM-nnn")]
     = T "This is document LDM-nnn."
  /\ replace_macros (T "{ \product\ Test Plan}") [(T "\product", T "Data Management")]
     = T "{ Data Management Test Plan}".
Proof.
  split; [|split].
  - intros macros s H. split.
    + apply replace_macros_SubstitutedAll, H.
    + intros out. apply SubstitutedAll_unique, H.
  - vm_compute. reflexivity.
  - vm_compute. reflexivity.
Qed.

Lemma replace_macros_substitutes_names_witness :
  SubstitutedAll [(T "\product", T "Data Management"); (T "\handle", T "LDM-nnn")]
    (T "\handle: \product\ Plan")
    (replace_macros (T "\handle: \product\ Plan")
       [(T "\product", T "Data Management"); (T "\handle", T "LDM-nnn")]).
Proof.
  apply (proj1 replace_macros_substitutes_names
           [(T "\product", T "Data Management"); (T "\handle", T "LDM-nnn")]
           (T "\handle: \product\ Plan")).
  reflexivity.
Defined.

(** ** Texts without the name *)

Lemma macro_pass_absent name content s : forall b,
  occurs name s = false ->
  render (fun _ => content) (scan (macro_pattern name) b s 0) = s.
Proof.
  induction s as [|c s IH]; intros b H.
  - simpl in H. rewrite orb_false_r in H.
    rewrite scan_end by (apply macro_match_none; exact H). reflexivity.
  - cbn [occurs] in H. apply orb_false_iff in H as [Hc Hs].
    rewrite scan_keep by (apply macro_match_none; exact Hc).
    rewrite render_keep, IH by exact Hs. reflexivity.
Qed.

Lemma replace_macros_absent macros : forall s,
  forallb (fun e => negb (occurs (fst e) s)) macros = true ->
  replace_macros s macros = s.
Proof.
  induction macros as [|[name content] macros IH]; intros s H; [reflexivity|].
  simpl in H. apply andb_true_iff in H as [Hn H]. apply negb_true_iff in Hn.
  rewrite replace_macros_cons, re_sub_render, macro_pass_absent by exact Hn.
  apply IH, H.
Qed.

(** C8. When no macro name of the table occurs in a text, the Macro
    Substituter returns the text as it is; running it a second time with the
    same table therefore changes nothing either. *)
Theorem replace_macros_idempotent_without_names :
  forall macros s,
    forallb (fun e => negb (occurs (fst e) s)) macros = true ->
    replace_macros s macros = s
    /\ replace_macros (replace_macros s macros) macros = replace_macros s macros.
Proof.
  intros macros s H. pose proof (replace_macros_absent macros s H) as E.
  split; [exact E|]. rewrite E. exact E.
Qed.

Lemma replace_macros_idempotent_without_names_witness :
  replace_macros (T "This is document LDM-nnn.")
    [(T "\handle", T "LDM-nnn"); (T "\product", T "Data Management")]
  = T "This is document LDM-nnn."
  /\ replace_macros
       (replace_macros (T "This is document LDM-nnn.")
          [(T "\handle", T "LDM-nnn"); (T "\product", T "Data Management")])
       [(T "\handle", T "LDM-nnn"); (T "\product", T "Data Management")]
     = replace_macros (T "This is document LDM-nnn.")
         [(T "\handle", T "LDM-nnn"); (T "\product", T "Data Management")].
Proof.
  apply (replace_macros_idempotent_without_names
           [(T "\handle", T "LDM-nnn"); (T "\product", T "Data Management")]
           (T "This is document LDM-nnn.")).
  reflexivity.
Defined.

(** ** What the substituter prints *)

(** C9.  [replace_macros] can raise.  Its loop prints two lines for each
    entry of the table before it substitutes, and [print] raises on a stream
    that does not take the line.  With a table that gives the name [\name]
    the content [caf] and an e with an acute accent, on a stream encoded in
    ASCII, the call ends in [UnicodeEncodeError] after the first line, and
    nothing is returned; on a closed stream the
    documented example ends in [ValueError].  On a stream that takes every
    line the documented example returns the documented text, with two lines
    written that the documentation does not show. *)
Theorem replace_macros_print_raises :
  Console.replace_macros (list text) no_debug ascii_print []
    (T "x") [(T "\name", T "caf" ++ [e_acute])]
  = ([T "replacing macro '\\\\name\\\\?'"], Raise UnicodeEncodeError)
  /\ Console.replace_macros (list text) no_debug closed_print []
       (T "This is document \handle.") [(T "\handle", T "LDM-nnn")]
     = ([], Raise ValueError)
  /\ Console.replace_macros (list text) no_debug every_print []
       (T "This is document \handle.") [(T "\handle", T "LDM-nnn")]
     = ([T "replacing macro '\\\\handle\\\\?'"; T "macro_content 'LDM-nnn'"],
        Return (T "This is document LDM-nnn.")).
Proof. vm_compute. repeat split. Qed.

(** ** No boundary behind the name *)

Lemma starts_with_extend name : forall x y,
  length name <= length x -> starts_with name (x ++ y) = starts_with name x.
Proof.
  induction name as [|a name IH]; intros x y H; [reflexivity|].
  destruct x as [|c x]; [simpl in H; lia|].
  cbn [app starts_with]. rewrite IH by (simpl in H; lia). reflexivity.
Qed.

Lemma word_not_backslash c : is_word c = true -> Ascii.eqb backslash c = false.
Proof.
  intros H. destruct (Ascii.eqb_spec backslash c) as [<-|]; [|reflexivity].
  vm_compute in H. discriminate.
Qed.

Lemma macro_scan_before name content pre : forall b t,
  nonempty name = true ->
  occurs name (pre ++ removelast name) = false ->
  render (fun _ => content) (scan (macro_pattern name) b (pre ++ name ++ t) 0)
  = pre ++ render (fun _ => content) (scan (macro_pattern name) None (name ++ t) 0).
Proof.
  induction pre as [|a pre IH]; intros b t Hn H.
  - cbn [app]. f_equal. apply scan_behind, macro_match_behind.
  - cbn [app occurs] in H. apply orb_false_iff in H as [Ha H].
    cbn [app]. rewrite scan_keep.
    + rewrite render_keep, IH by assumption. reflexivity.
    + apply macro_match_none.
      assert (En : name = removelast name ++ [last name a]).
      { apply app_removelast_last. destruct name; discriminate. }
      rewrite En at 2. rewrite <- app_assoc.
      change (a :: pre ++ removelast name ++ [last name a] ++ t)
        with ((a :: pre) ++ removelast name ++ [last name a] ++ t).
      rewrite app_assoc, starts_with_extend; [exact Ha|].
      rewrite length_app. cbn [length].
      assert (length name = length (removelast name) + 1)
        by (rewrite En at 1; rewrite length_app; reflexivity).
      lia.
Qed.

(** C10. The Macro Substituter asks nothing of the character behind a macro
    name.  In a pass for one entry, the first occurrence of the name is
    replaced by the content also when a word character follows it at once,
    and that character and the rest are read on, so a name that is the
    beginning of a longer command name is replaced inside the longer name.
    With the table [\h -> X] the text [\hb] becomes [Xb]. *)
Theorem replace_macros_no_boundary :
  (forall name content pre c rest,
     nonempty name = true ->
     is_word c = true ->
     occurs name (pre ++ removelast name) = false ->
     replace_macros (pre ++ name ++ c :: rest) [(name, content)]
     = pre ++ content ++ replace_macros (c :: rest) [(name, content)])
  /\ replace_macros (T "\hb") [(T "\h", T "X")] = T "Xb".
Proof.
  split; [|vm_compute; reflexivity].
  intros name content pre c rest Hn Hc Hpre.
  unfold replace_macros. cbn [fold_left fst snd]. rewrite !re_sub_render.
  rewrite macro_scan_before by assumption.
  rewrite macro_scan_here by assumption.
  cbn [after_backslash]. rewrite (word_not_backslash c Hc). reflexivity.
Qed.

Lemma replace_macros_no_boundary_witness :
  replace_macros (T "see " ++ T "\hand" ++ "l"%char :: T "e")
    [(T "\hand", T "X")]
  = T "see " ++ T "X" ++ replace_macros ("l"%char :: T "e") [(T "\hand", T "X")].
Proof.
  apply (proj1 replace_macros_no_boundary (T "\hand") (T "X") (T "see ")
           "l"%char (T "e")); reflexivity.
Defined.

(** ** The input pattern *)

Lemma take_drop_while p s : take_while p s ++ drop_while p s = s.
Proof.
  induction s as [|c s IH]; [reflexivity|].
  cbn [take_while drop_while]. destruct (p c); [|reflexivity].
  cbn [app]. f_equal. exact IH.
Qed.

Lemma take_while_all p s : forallb p (take_while p s) = true.
Proof.
  induction s as [|c s IH]; [reflexivity|].
  cbn [take_while]. destruct (p c) eqn:E; [|reflexivity].
  cbn [forallb]. rewrite E. exact IH.
Qed.

Lemma drop_while_head p s : head_in p (drop_while p s) = false.
Proof.
  induction s as [|c s IH]; [reflexivity|].
  cbn [drop_while]. destruct (p c) eqn:E; [exact IH|exact E].
Qed.

(** A lazy run in front of a pattern that cannot start with a character of
    the run is taken to its end. *)
Lemma lazy_skip p (F : cursor -> list cursor) :
  (forall b c s e g, p c = true -> F (Cursor b (c :: s) e g) = []) ->
  forall w b e g rest,
    forallb p w = true -> head_in p rest = false ->
    flat_map F (rep_lazy p b (w ++ rest) e g)
    = F (Cursor (behind_after b w) rest (rev w ++ e) g).
Proof.
  intros HF. induction w as [|a w IH]; intros b e g rest Hw Hr.
  - cbn [app]. destruct rest as [|c rest].
    + cbn [rep_lazy flat_map]. apply app_nil_r.
    + simpl in Hr. cbn [rep_lazy]. rewrite Hr. cbn [flat_map]. apply app_nil_r.
  - simpl in Hw. apply andb_true_iff in Hw as [Ha Hw].
    cbn [app rep_lazy]. rewrite Ha. cbn [flat_map].
    rewrite (HF _ _ _ _ _ Ha), IH by assumption.
    cbn [app rev behind_after fold_left]. rewrite <- app_assoc. reflexivity.
Qed.

(** So is a greedy run. *)
Lemma greedy_skip p (F : cursor -> list cursor) :
  (forall b c s e g, p c = true -> F (Cursor b (c :: s) e g) = []) ->
  forall w b e g rest,
    forallb p w = true -> head_in p rest = false ->
    flat_map F (rep_greedy p b (w ++ rest) e g)
    = F (Cursor (behind_after b w) rest (rev w ++ e) g).
Proof.
  intros HF. induction w as [|a w IH]; intros b e g rest Hw Hr.
  - cbn [app]. destruct rest as [|c rest].
    + cbn [rep_greedy flat_map]. apply app_nil_r.
    + simpl in Hr. cbn [rep_greedy]. rewrite Hr. cbn [flat_map]. apply app_nil_r.
  - simpl in Hw. apply andb_true_iff in Hw as [Ha Hw].
    cbn [app rep_greedy]. rewrite Ha, flat_map_app. cbn [flat_map].
    rewrite (HF _ _ _ _ _ Ha), IH by assumption.
    cbn [app rev behind_after fold_left]. rewrite <- app_assoc, !app_nil_r.
    reflexivity.
Qed.

(** The classes of the pattern that follow one another share no character. *)
Lemma blank_not_lbrace c : is_blank c = true -> is_lbrace c = false.
Proof. intros H. apply Ascii.eqb_eq in H. subst c. reflexivity. Qed.

Lemma blank_not_filename c : is_blank c = true -> filename_char c = false.
Proof. intros H. apply Ascii.eqb_eq in H. subst c. reflexivity. Qed.

Lemma lbrace_not_filename c : is_lbrace c = true -> filename_char c = false.
Proof. intros H. apply Ascii.eqb_eq in H. subst c. reflexivity. Qed.

Lemma filename_not_closing c : filename_char c = true -> closing_char c = false.
Proof.
  destruct c as [[] [] [] [] [] [] [] []]; vm_compute; intros H;
    first [reflexivity | discriminate].
Qed.

Lemma flat_map_of_map {A B C : Type} (f : B -> list C) (h : A -> B) (l : list A) :
  flat_map f (map h l) = flat_map (fun x => f (h x)) l.
Proof.
  induction l as [|a l IH]; [reflexivity|]. cbn [map flat_map]. rewrite IH.
  reflexivity.
Qed.

(** The file name and the closing character. *)
Lemma run_filename_part b s e g :
  run filename_part (Cursor b s e g)
  = match take_while filename_char s, drop_while filename_char s with
    | a :: w, t :: rest =>
        if closing_char t
        then [Cursor (Some t) rest (t :: rev (a :: w) ++ e)
                     (("filename"%string, a :: w) :: g)]
        else []
    | _, _ => []
    end.
Proof.
  unfold filename_part. cbn [run behind ahead eaten groups].
  destruct s as [|c s']; [reflexivity|].
  cbn [eat_if ahead take_while drop_while].
  destruct (filename_char c) eqn:Hc; [|reflexivity].
  cbn [flat_map behind ahead eaten groups]. rewrite app_nil_r.
  rewrite flat_map_of_map.
  pose proof (take_drop_while filename_char s') as E.
  pose proof (take_while_all filename_char s') as Hw.
  pose proof (drop_while_head filename_char s') as Hr.
  set (w := take_while filename_char s') in *.
  set (rest := drop_while filename_char s') in *.
  clearbody w rest. subst s'.
  rewrite (greedy_skip filename_char
             (fun x => run (Cls closing_char)
                (Cursor (behind x) (ahead x) (eaten x ++ e)
                   (("filename"%string, rev (eaten x)) :: groups x)))).
  - cbn [run eat_if behind ahead eaten groups].
    destruct rest as [|t rest]; [reflexivity|].
    cbn [rev]. rewrite rev_app_distr, rev_involutive. reflexivity.
  - intros b' c' s'' e' g' Hc'. cbn [run eat_if behind ahead eaten groups].
    rewrite (filename_not_closing c' Hc'). reflexivity.
  - exact Hw.
  - exact Hr.
Qed.

Lemma run_filename_part_fails p b c s e g :
  p c = true -> (forall x, p x = true -> filename_char x = false) ->
  run filename_part (Cursor b (c :: s) e g) = [].
Proof.
  intros Hc Hp. rewrite run_filename_part. cbn [take_while].
  rewrite (Hp c Hc). reflexivity.
Qed.

(** The opening braces. *)
Lemma run_braces_part b s e g :
  run braces_part (Cursor b s e g)
  = run filename_part
      (Cursor (behind_after b (take_while is_lbrace s)) (drop_while is_lbrace s)
              (rev (take_while is_lbrace s) ++ e) g).
Proof.
  unfold braces_part. cbn [run behind ahead eaten groups].
  rewrite <- (take_drop_while is_lbrace s) at 1.
  apply lazy_skip.
  - intros b' c s' e' g' Hc.
    apply (run_filename_part_fails is_lbrace); [exact Hc|].
    apply lbrace_not_filename.
  - apply take_while_all.
  - apply drop_while_head.
Qed.

(** The spaces. *)
Lemma run_blanks_part b s e g :
  run blanks_part (Cursor b s e g)
  = run braces_part
      (Cursor (behind_after b (take_while is_blank s)) (drop_while is_blank s)
              (rev (take_while is_blank s) ++ e) g).
Proof.
  unfold blanks_part. cbn [run behind ahead eaten groups].
  rewrite <- (take_drop_while is_blank s) at 1.
  apply lazy_skip.
  - intros b' c s' e' g' Hc. rewrite run_braces_part.
    cbn [take_while drop_while]. rewrite (blank_not_lbrace c Hc).
    cbn [rev app behind_after fold_left].
    apply (run_filename_part_fails is_blank); [exact Hc|].
    apply blank_not_filename.
  - apply take_while_all.
  - apply drop_while_head.
Qed.

Lemma match_at_first_match r b s adv :
  match_at r b s adv = first_match adv (run r (Cursor b s [] [])).
Proof. reflexivity. Qed.

Lemma first_match_app adv l1 l2 :
  first_match adv (l1 ++ l2)
  = match first_match adv l1 with
    | Some m => Some m
    | None => first_match adv l2
    end.
Proof.
  unfold first_match. rewrite filter_app.
  destruct (filter _ l1); reflexivity.
Qed.

(** The command. *)
Lemma run_input_include b c s1 :
  run input_include_pattern (Cursor b (c :: s1) [] [])
  = if Ascii.eqb backslash c
    then ends_with_command (T "input") c s1 ++ ends_with_command (T "include") c s1
    else [].
Proof.
  change input_include_pattern
    with (Cat (Chr backslash)
            (Cat (Named "command" (Alt (Str (T "input")) (Str (T "include"))))
                 blanks_part)).
  cbn [run eat_if ahead eaten groups behind].
  destruct (Ascii.eqb backslash c); [|reflexivity].
  cbn [flat_map behind ahead eaten groups]. rewrite app_nil_r.
  rewrite !run_str, map_app, flat_map_app. unfold ends_with_command.
  f_equal.
  - destruct (starts_with (T "input") s1); [|reflexivity].
    cbn [map flat_map behind ahead eaten groups].
    rewrite !app_nil_r, rev_involutive. reflexivity.
  - destruct (starts_with (T "include") s1); [|reflexivity].
    cbn [map flat_map behind ahead eaten groups].
    rewrite !app_nil_r, rev_involutive. reflexivity.
Qed.

Lemma first_match_with_command adv cmd c s1 :
  Ascii.eqb backslash c = true ->
  first_match adv (ends_with_command cmd c s1)
  = option_map directive_match (directive_with cmd (c :: s1)).
Proof.
  intros Hc. unfold ends_with_command, directive_with. rewrite Hc. cbn [andb].
  destruct (starts_with cmd s1); [|reflexivity].
  rewrite run_blanks_part, run_braces_part, run_filename_part.
  set (s2 := skipn (length cmd) s1).
  set (blanks := take_while is_blank s2).
  set (s3 := drop_while is_blank s2).
  set (braces := take_while is_lbrace s3).
  set (s4 := drop_while is_lbrace s3).
  destruct (take_while filename_char s4) as [|a w]; [reflexivity|].
  destruct (drop_while filename_char s4) as [|t rest]; [reflexivity|].
  destruct (closing_char t); [|reflexivity].
  unfold first_match. cbn [filter eaten length Nat.eqb negb orb].
  rewrite orb_true_r. cbn [option_map eaten groups]. unfold directive_match.
  cbn [d_text d_filename d_command]. f_equal. f_equal.
  generalize (a :: w) as fname. intros fname.
  change (rev (t :: rev fname ++ rev braces ++ rev blanks ++ rev cmd ++ [c]))
    with (rev (rev fname ++ rev braces ++ rev blanks ++ rev cmd ++ [c]) ++ [t]).
  rewrite !rev_app_distr, !rev_involutive. cbn [rev app].
  rewrite <- !app_assoc. reflexivity.
Qed.

(** The input pattern matches exactly where a directive starts, and the
    match object is the directive's. *)
Lemma input_match b s adv :
  match_at input_include_pattern b s adv
  = option_map directive_match (directive_at s).
Proof.
  rewrite match_at_first_match. unfold directive_at.
  destruct s as [|c s1]; [reflexivity|].
  rewrite run_input_include.
  destruct (Ascii.eqb backslash c) eqn:Hc.
  - rewrite first_match_app, !first_match_with_command by exact Hc.
    destruct (directive_with (T "input") (c :: s1)); reflexivity.
  - unfold directive_with. rewrite Hc. reflexivity.
Qed.

(** ** Scanning for directives *)

Lemma scan_found_match r s : forall b k m,
  In (Found m) (scan r b s k) ->
  exists b' s' adv, match_at r b' s' adv = Some m.
Proof.
  induction s as [|c s IH]; intros b k m H.
  - destruct k; [|destruct H]. cbn [scan] in H.
    destruct (match_at r b [] false) as [m0|] eqn:E; [|destruct H].
    destruct H as [H|[]]. injection H as <-. eauto.
  - destruct k as [|k]; [|apply (IH _ _ _ H)].
    cbn [scan] in H.
    destruct (match_at r b (c :: s) false) as [m0|] eqn:E.
    + destruct (length (matched m0)).
      * destruct H as [H|H]; [injection H as <-; eauto|].
        destruct (match_at r b (c :: s) true) as [m1|] eqn:E1.
        -- destruct H as [H|H]; [injection H as <-; eauto|apply (IH _ _ _ H)].
        -- destruct H as [H|H]; [discriminate|apply (IH _ _ _ H)].
      * destruct H as [H|H]; [injection H as <-; eauto|apply (IH _ _ _ H)].
    + destruct H as [H|H]; [discriminate|apply (IH _ _ _ H)].
Qed.

(** Every match of the input pattern is a directive, with its file name. *)
Lemma input_found_directive s b k m :
  In (Found m) (scan input_include_pattern b s k) ->
  exists s' d, directive_at s' = Some d /\ m = directive_match d.
Proof.
  intros H. apply scan_found_match in H as (b' & s' & adv & H).
  rewrite input_match in H. destruct (directive_at s') as [d|] eqn:E; [|discriminate].
  injection H as <-. eauto.
Qed.

Lemma input_found_filename s b k m :
  In (Found m) (scan input_include_pattern b s k) ->
  exists fname, group m "filename" = Some fname.
Proof.
  intros H. apply input_found_directive in H as (s' & d & _ & ->).
  exists (d_filename d). reflexivity.
Qed.

Lemma directive_with_text cmd s d :
  directive_with cmd s = Some d -> exists c m, d_text d = c :: m.
Proof.
  unfold directive_with. destruct s as [|c s1]; [discriminate|].
  destruct (Ascii.eqb backslash c && starts_with cmd s1); [|discriminate].
  destruct (take_while filename_char _) as [|a w]; [discriminate|].
  destruct (drop_while filename_char _) as [|t rest]; [discriminate|].
  destruct (closing_char t); [|discriminate].
  intros H. injection H as <-. cbn [d_text]. eauto.
Qed.

Lemma directive_at_text s d :
  directive_at s = Some d -> exists c m, d_text d = c :: m.
Proof.
  unfold directive_at.
  destruct (directive_with (T "input") s) as [d0|] eqn:E.
  - intros H. injection H as <-. eapply directive_with_text, E.
  - apply directive_with_text.
Qed.

(** Without a directive, the scan keeps every character. *)
Lemma scan_no_directive s : forall b,
  has_directive s = false ->
  scan input_include_pattern b s 0 = map Keep s.
Proof.
  induction s as [|c s IH]; intros b H.
  - apply scan_end. rewrite input_match. reflexivity.
  - cbn [has_directive] in H.
    destruct (directive_at (c :: s)) as [d|] eqn:E; [discriminate|].
    rewrite scan_keep by (rewrite input_match, E; reflexivity).
    cbn [map]. f_equal. apply IH, H.
Qed.

Lemma sub_pieces_keep repl s : sub_pieces repl (map Keep s) = ([], Return s).
Proof.
  induction s as [|c s IH]; [reflexivity|].
  cbn [map sub_pieces]. rewrite IH. reflexivity.
Qed.

(** ** A directive does not depend on what follows it *)

Lemma span_app p x y :
  drop_while p x <> [] ->
  take_while p (x ++ y) = take_while p x
  /\ drop_while p (x ++ y) = drop_while p x ++ y.
Proof.
  induction x as [|c x IH]; intros H; [destruct H; reflexivity|].
  cbn [app take_while drop_while] in *. destruct (p c).
  - destruct (IH H) as [-> ->]. split; reflexivity.
  - split; reflexivity.
Qed.

Lemma starts_with_app_r name s y :
  starts_with name s = true -> starts_with name (s ++ y) = true.
Proof.
  intros H. rewrite (starts_with_split name s H), <- app_assoc.
  apply starts_with_app.
Qed.

Lemma skipn_starts_with name s y :
  starts_with name s = true ->
  skipn (length name) (s ++ y) = skipn (length name) s ++ y.
Proof.
  intros H. rewrite (starts_with_split name s H) at 1.
  rewrite <- app_assoc, skipn_app, skipn_all, Nat.sub_diag. reflexivity.
Qed.

Lemma drop_while_nil_inv p x : drop_while p x <> [] -> x <> [].
Proof. destruct x; [intros H; exact H|discriminate]. Qed.

Lemma take_while_nil_inv p x a w : take_while p x = a :: w -> x <> [].
Proof. destruct x; discriminate. Qed.

Lemma directive_with_app cmd s y d :
  directive_with cmd s = Some d -> directive_with cmd (s ++ y) = Some d.
Proof.
  unfold directive_with. destruct s as [|c s1]; [discriminate|]. cbn [app].
  destruct (Ascii.eqb backslash c); [|discriminate]. cbn [andb].
  destruct (starts_with cmd s1) eqn:Hs; [|discriminate].
  rewrite (starts_with_app_r _ _ y Hs), (skipn_starts_with _ _ y Hs).
  set (s2 := skipn (length cmd) s1).
  set (s3 := drop_while is_blank s2).
  set (s4 := drop_while is_lbrace s3).
  destruct (take_while filename_char s4) as [|a w] eqn:Ef; [discriminate|].
  destruct (drop_while filename_char s4) as [|t rest] eqn:Er; [discriminate|].
  assert (H4 : s4 <> []) by (eapply take_while_nil_inv, Ef).
  assert (H3 : s3 <> []) by (apply (drop_while_nil_inv is_lbrace), H4).
  destruct (span_app is_blank s2 y H3) as [E1 E2]. rewrite E1, E2. fold s3.
  destruct (span_app is_lbrace s3 y H4) as [E3 E4]. rewrite E3, E4. fold s4.
  destruct (span_app filename_char s4 y) as [E5 E6]; [rewrite Er; discriminate|].
  rewrite E5, E6, Ef, Er. cbn [app]. intros H. exact H.
Qed.

Lemma directive_at_app s y d :
  directive_at s = Some d -> exists d', directive_at (s ++ y) = Some d'.
Proof.
  unfold directive_at.
  destruct (directive_with (T "input") s) as [d0|] eqn:E.
  - intros _. rewrite (directive_with_app _ _ y _ E). eauto.
  - intros H. destruct (directive_with (T "input") (s ++ y)); [eauto|].
    rewrite (directive_with_app _ _ y _ H). eauto.
Qed.

(** ** The text between the matches holds no directive *)

Lemma gaps_not_nil ps : gaps ps <> [].
Proof.
  destruct ps as [|[c|m] ps]; cbn [gaps]; try discriminate.
  destruct (gaps ps); discriminate.
Qed.

Lemma input_scan_gaps s : forall b k,
  Forall (fun g => has_directive g = false)
         (gaps (scan input_include_pattern b s k))
  /\ exists t, skipn k s = hd [] (gaps (scan input_include_pattern b s k)) ++ t.
Proof.
  induction s as [|c s IH]; intros b k.
  - assert (E : scan input_include_pattern b [] k = []).
    { destruct k; [|reflexivity]. apply scan_end. rewrite input_match. reflexivity. }
    rewrite E. cbn [gaps hd]. split; [repeat constructor|].
    exists []. destruct k; reflexivity.
  - destruct k as [|k]; [|exact (IH (Some c) k)].
    destruct (directive_at (c :: s)) as [d|] eqn:E.
    + destruct (directive_at_text _ _ E) as (c' & m' & Ht).
      assert (Hm : match_at input_include_pattern b (c :: s) false
                   = Some (directive_match d))
        by (rewrite input_match, E; reflexivity).
      cbn [scan]. rewrite Hm. cbn [matched directive_match]. rewrite Ht.
      cbn [length gaps hd]. split.
      * constructor; [reflexivity|]. apply (IH (Some c) (length m')).
      * exists (c :: s). reflexivity.
    + rewrite scan_keep by (rewrite input_match, E; reflexivity).
      destruct (IH (Some c) 0) as [Hg [t Ht]]. cbn [skipn] in Ht.
      cbn [gaps]. destruct (gaps (scan input_include_pattern (Some c) s 0))
        as [|g gs] eqn:Eg; [destruct (gaps_not_nil _ Eg)|].
      cbn [hd] in Ht |- *. pose proof (Forall_inv Hg) as Hg1. pose proof (Forall_inv_tail Hg) as Hg2.
      cbn beta in Hg1. split.
      * constructor; [|exact Hg2]. cbn [has_directive].
        destruct (directive_at (c :: g)) as [d|] eqn:Ed; [|exact Hg1].
        destruct (directive_at_app _ t _ Ed) as [d' Hd'].
        cbn [app] in Hd'. rewrite <- Ht, E in Hd'. discriminate.
      * exists t. cbn [app skipn]. f_equal. exact Ht.
Qed.

(** [has_directive] says whether the scan for the input pattern finds a match. *)
Lemma scan_finds_directive s : forall b,
  (forall m, ~ In (Found m) (scan input_include_pattern b s 0)) ->
  has_directive s = false.
Proof.
  induction s as [|c s IH]; intros b H; [reflexivity|].
  cbn [has_directive]. destruct (directive_at (c :: s)) as [d|] eqn:E.
  - exfalso. apply (H (directive_match d)).
    destruct (directive_at_text _ _ E) as (c' & m' & Ht).
    cbn [scan]. rewrite input_match, E. cbn [option_map matched directive_match].
    rewrite Ht. left. reflexivity.
  - apply (IH (Some c)). intros m Hm. apply (H m).
    rewrite scan_keep by (rewrite input_match, E; reflexivity).
    right. exact Hm.
Qed.

Lemma has_directive_finditer s :
  has_directive s = false
  <-> forall m, ~ In (Found m) (finditer input_include_pattern s).
Proof.
  split.
  - intros H m Hm. unfold finditer in Hm. rewrite scan_no_directive in Hm by exact H.
    apply in_map_iff in Hm as (c & Hc & _). discriminate.
  - apply scan_finds_directive.
Qed.

(** With a directive in the text, the scan keeps the characters in front of
    the first one and then finds it. *)
Lemma scan_first_directive s : forall b,
  has_directive s = true ->
  exists pre m rest,
    scan input_include_pattern b s 0 = map Keep pre ++ Found m :: rest
    /\ exists fname, group m "filename" = Some fname.
Proof.
  induction s as [|c s IH]; intros b H; [discriminate|].
  cbn [has_directive] in H. destruct (directive_at (c :: s)) as [d|] eqn:E.
  - destruct (directive_at_text _ _ E) as (c' & m' & Ht).
    exists [], (directive_match d). eexists. split.
    + cbn [scan]. rewrite input_match, E. cbn [option_map matched directive_match].
      rewrite Ht. cbn [length map app]. reflexivity.
    + exists (d_filename d). reflexivity.
  - destruct (IH (Some c) H) as (pre & m & rest & Hs & Hg).
    exists (c :: pre), m, rest. split; [|exact Hg].
    rewrite scan_keep by (rewrite input_match, E; reflexivity).
    rewrite Hs. reflexivity.
Qed.

(** ** The shape of a directive *)

Lemma span_exact p w rest :
  forallb p w = true -> head_in p rest = false ->
  take_while p (w ++ rest) = w /\ drop_while p (w ++ rest) = rest.
Proof.
  intros Hw Hr. induction w as [|a w IH].
  - destruct rest as [|c rest]; [split; reflexivity|].
    simpl in Hr. cbn [app take_while drop_while]. rewrite Hr. split; reflexivity.
  - simpl in Hw. apply andb_true_iff in Hw as [Ha Hw].
    destruct (IH Hw) as [E1 E2].
    cbn [app take_while drop_while]. rewrite Ha, E1, E2. split; reflexivity.
Qed.

Lemma head_in_app p x y :
  head_in p (x ++ y) = match x with [] => head_in p y | _ :: _ => head_in p x end.
Proof. destruct x; reflexivity. Qed.

Lemma head_in_other p q w :
  (forall c, q c = true -> p c = false) ->
  forallb q w = true -> head_in p w = false.
Proof.
  intros Hpq Hw. destruct w as [|c w]; [reflexivity|].
  simpl in Hw. apply andb_true_iff in Hw as [Hc _]. simpl. auto.
Qed.

Lemma closing_not_filename c : closing_char c = true -> filename_char c = false.
Proof.
  intros H. destruct (filename_char c) eqn:E; [|reflexivity].
  rewrite (filename_not_closing c E) in H. discriminate.
Qed.

Lemma lbrace_not_blank c : is_lbrace c = true -> is_blank c = false.
Proof. intros H. apply Ascii.eqb_eq in H. subst c. reflexivity. Qed.

Lemma filename_not_blank c : filename_char c = true -> is_blank c = false.
Proof.
  intros H. destruct (is_blank c) eqn:E; [|reflexivity].
  rewrite (blank_not_filename c E) in H. discriminate.
Qed.

Lemma filename_not_lbrace c : filename_char c = true -> is_lbrace c = false.
Proof.
  intros H. destruct (is_lbrace c) eqn:E; [|reflexivity].
  rewrite (lbrace_not_filename c E) in H. discriminate.
Qed.

(** A text that starts with a directive is made of the directive's parts. *)
Lemma directive_with_shape cmd s d :
  directive_with cmd s = Some d ->
  exists c blanks braces fname t rest,
    s = c :: cmd ++ blanks ++ braces ++ fname ++ t :: rest
    /\ Ascii.eqb backslash c = true
    /\ forallb is_blank blanks = true
    /\ forallb is_lbrace braces = true
    /\ forallb filename_char fname = true
    /\ nonempty fname = true
    /\ closing_char t = true.
Proof.
  unfold directive_with. destruct s as [|c s1]; [discriminate|].
  destruct (Ascii.eqb backslash c) eqn:Hc; [|discriminate]. cbn [andb].
  destruct (starts_with cmd s1) eqn:Hs; [|discriminate].
  pose proof (starts_with_split cmd s1 Hs) as E1.
  set (s2 := skipn (length cmd) s1) in *.
  pose proof (take_drop_while is_blank s2) as E2.
  set (s3 := drop_while is_blank s2) in *.
  pose proof (take_drop_while is_lbrace s3) as E3.
  set (s4 := drop_while is_lbrace s3) in *.
  pose proof (take_drop_while filename_char s4) as E4.
  pose proof (take_while_all filename_char s4) as Hf.
  destruct (take_while filename_char s4) as [|a w] eqn:Ef; [discriminate|].
  destruct (drop_while filename_char s4) as [|t rest] eqn:Er; [discriminate|].
  destruct (closing_char t) eqn:Ht; [|discriminate].
  intros _.
  exists c, (take_while is_blank s2), (take_while is_lbrace s3), (a :: w), t, rest.
  repeat split; try assumption; try apply take_while_all.
  rewrite E4, E3, E2. f_equal. exact E1.
Qed.

(** And a text made of the parts of a directive starts with that directive. *)
Lemma shape_directive_with cmd c blanks braces fname t rest :
  Ascii.eqb backslash c = true ->
  forallb is_blank blanks = true ->
  forallb is_lbrace braces = true ->
  forallb filename_char fname = true ->
  nonempty fname = true ->
  closing_char t = true ->
  directive_with cmd (c :: cmd ++ blanks ++ braces ++ fname ++ t :: rest)
  = Some (Directive cmd fname (c :: cmd ++ blanks ++ braces ++ fname ++ [t])).
Proof.
  intros Hc Hb Hl Hf Hn Ht. unfold directive_with.
  rewrite Hc, starts_with_app. cbn [andb].
  rewrite skipn_app, skipn_all, Nat.sub_diag. cbn [app skipn].
  assert (H4 : head_in filename_char (t :: rest) = false)
    by (apply closing_not_filename, Ht).
  assert (H3 : head_in is_lbrace (fname ++ t :: rest) = false).
  { rewrite head_in_app. destruct fname as [|a w]; [discriminate|].
    apply (head_in_other is_lbrace filename_char); [apply filename_not_lbrace|exact Hf]. }
  assert (H2 : head_in is_blank (braces ++ fname ++ t :: rest) = false).
  { rewrite head_in_app. destruct braces as [|b bs].
    - rewrite head_in_app. destruct fname as [|a w]; [discriminate|].
      apply (head_in_other is_blank filename_char); [apply filename_not_blank|exact Hf].
    - apply (head_in_other is_blank is_lbrace); [apply lbrace_not_blank|exact Hl]. }
  destruct (span_exact is_blank blanks _ Hb H2) as [-> ->].
  destruct (span_exact is_lbrace braces _ Hl H3) as [-> ->].
  destruct (span_exact filename_char fname _ Hf H4) as [-> ->].
  destruct fname as [|a w]; [discriminate|]. rewrite Ht. reflexivity.
Qed.

(** ** Directives and the ends of lines *)

Lemma any_but_newline_neq c : any_but_newline c = true -> c <> newline.
Proof.
  unfold any_but_newline. intros H ->. rewrite Ascii.eqb_refl in H. discriminate.
Qed.

Lemma split_at_newline P : forall u t y' rest,
  one_line u = true -> one_line P = true ->
  u ++ newline :: y' = P ++ t :: rest ->
  (u = P /\ t = newline) \/ exists u', u = P ++ t :: u'.
Proof.
  induction P as [|p P IH]; intros u t y' rest Hu HP E.
  - destruct u as [|a u].
    + injection E as <- _. left. auto.
    + injection E as <- _. right. exists u. reflexivity.
  - simpl in HP. apply andb_true_iff in HP as [Hp HP].
    destruct u as [|a u].
    + injection E as <- _. destruct (any_but_newline_neq _ Hp eq_refl).
    + injection E as <- E. simpl in Hu. apply andb_true_iff in Hu as [_ Hu].
      destruct (IH _ _ _ _ Hu HP E) as [[-> ->]|[u' ->]].
      * left. auto.
      * right. exists u'. reflexivity.
Qed.

Lemma one_line_class p w :
  (forall c, p c = true -> any_but_newline c = true) ->
  forallb p w = true -> one_line w = true.
Proof.
  intros Hp Hw. unfold one_line. apply forallb_forall. intros c Hc.
  apply Hp. rewrite forallb_forall in Hw. apply Hw, Hc.
Qed.

Lemma blank_one_line c : is_blank c = true -> any_but_newline c = true.
Proof. intros H. apply Ascii.eqb_eq in H. subst c. reflexivity. Qed.

Lemma lbrace_one_line c : is_lbrace c = true -> any_but_newline c = true.
Proof. intros H. apply Ascii.eqb_eq in H. subst c. reflexivity. Qed.

Lemma filename_one_line c : filename_char c = true -> any_but_newline c = true.
Proof.
  intros H. unfold any_but_newline.
  destruct (Ascii.eqb_spec c newline) as [->|]; [|reflexivity].
  vm_compute in H. discriminate.
Qed.

Lemma backslash_one_line c : Ascii.eqb backslash c = true -> any_but_newline c = true.
Proof. intros H. apply Ascii.eqb_eq in H. subst c. reflexivity. Qed.

Lemma one_line_app x y : one_line (x ++ y) = one_line x && one_line y.
Proof. apply forallb_app. Qed.

(** A directive that reaches a newline still stands when text that starts
    with a closing character is put in front of that newline. *)
Lemma directive_with_before_newline cmd u y' d z y :
  directive_with cmd (u ++ newline :: y') = Some d ->
  one_line u = true -> one_line cmd = true ->
  z = [] \/ head_in closing_char z = true ->
  exists d', directive_with cmd (u ++ z ++ newline :: y) = Some d'.
Proof.
  intros H Hu Hcmd Hz.
  apply directive_with_shape in H
    as (c & blanks & braces & fname & t & rest & E & Hc & Hb & Hl & Hf & Hn & Ht).
  assert (HP : one_line (c :: cmd ++ blanks ++ braces ++ fname) = true).
  { change (c :: cmd ++ blanks ++ braces ++ fname)
      with ([c] ++ cmd ++ blanks ++ braces ++ fname).
    rewrite !one_line_app, Hcmd.
    rewrite (one_line_class is_blank blanks blank_one_line Hb).
    rewrite (one_line_class is_lbrace braces lbrace_one_line Hl).
    rewrite (one_line_class filename_char fname filename_one_line Hf).
    simpl. rewrite (backslash_one_line c Hc). reflexivity. }
  assert (E' : u ++ newline :: y'
               = (c :: cmd ++ blanks ++ braces ++ fname) ++ t :: rest).
  { rewrite E. cbn [app]. rewrite <- !app_assoc. reflexivity. }
  destruct (split_at_newline _ _ _ _ _ Hu HP E') as [[-> ->]|[u' ->]].
  - assert (Hh : exists t' r', z ++ newline :: y = t' :: r' /\ closing_char t' = true).
    { destruct Hz as [->|Hz]; [exists newline, y; split; reflexivity|].
      destruct z as [|t' r']; [discriminate|].
      exists t', (r' ++ newline :: y). split; [reflexivity|exact Hz]. }
    destruct Hh as (t' & r' & -> & Ht').
    eexists. cbn [app]. rewrite <- !app_assoc.
    apply shape_directive_with; assumption.
  - eexists. cbn [app]. rewrite <- !app_assoc. cbn [app].
    apply shape_directive_with; assumption.
Qed.

Lemma directive_at_before_newline u y' d z y :
  directive_at (u ++ newline :: y') = Some d ->
  one_line u = true ->
  z = [] \/ head_in closing_char z = true ->
  exists d', directive_at (u ++ z ++ newline :: y) = Some d'.
Proof.
  unfold directive_at. intros H Hu Hz.
  destruct (directive_with (T "input") (u ++ newline :: y')) as [d0|] eqn:E.
  - destruct (directive_with_before_newline _ _ _ _ z y E Hu eq_refl Hz) as [d' ->].
    eauto.
  - destruct (directive_with_before_newline _ _ _ _ z y H Hu eq_refl Hz) as [d' ->].
    destruct (directive_with (T "input") (u ++ z ++ newline :: y)); eauto.
Qed.

(** ** Removing the ends of lines adds no directive *)

Lemma has_directive_cons c s : has_directive s = true -> has_directive (c :: s) = true.
Proof. intros H. cbn [has_directive]. rewrite H. destruct (directive_at (c :: s)); reflexivity. Qed.

Lemma has_directive_app_r x y : has_directive y = true -> has_directive (x ++ y) = true.
Proof.
  intros H. induction x as [|c x IH]; [exact H|].
  cbn [app]. apply has_directive_cons, IH.
Qed.

Lemma has_directive_app_l x y : has_directive x = true -> has_directive (x ++ y) = true.
Proof.
  induction x as [|c x IH]; [discriminate|].
  cbn [app has_directive]. destruct (directive_at (c :: x)) as [d|] eqn:E.
  - intros _. destruct (directive_at_app _ y _ E) as [d' E']. cbn [app] in E'.
    rewrite E'. reflexivity.
  - intros H. rewrite (IH H). destruct (directive_at (c :: x ++ y)); reflexivity.
Qed.

Lemma directive_at_newline s : directive_at (newline :: s) = None.
Proof. reflexivity. Qed.

Lemma has_directive_line l' : forall w Y' Y,
  one_line l' = true ->
  w = [] \/ head_in closing_char w = true ->
  (has_directive Y' = true -> has_directive Y = true) ->
  has_directive (l' ++ newline :: Y') = true ->
  has_directive (l' ++ w ++ newline :: Y) = true.
Proof.
  induction l' as [|c l' IH]; intros w Y' Y Hl Hw HY H.
  - cbn [app has_directive] in H. rewrite directive_at_newline in H.
    cbn [app]. apply has_directive_app_r, has_directive_cons, HY, H.
  - simpl in Hl. apply andb_true_iff in Hl as [Hc Hl].
    cbn [app has_directive] in H |- *.
    destruct (directive_at (c :: l' ++ newline :: Y')) as [d|] eqn:E.
    + destruct (directive_at_before_newline (c :: l') Y' d w Y E) as [d' E'];
        [simpl; rewrite Hc; exact Hl|exact Hw|].
      cbn [app] in E'. rewrite E'. reflexivity.
    + rewrite (IH w Y' Y Hl Hw HY H).
      destruct (directive_at (c :: l' ++ w ++ newline :: Y)); reflexivity.
Qed.

Lemma has_directive_cut_lines ls : forall ls',
  Forall2 cut_line ls ls' ->
  forallb one_line ls' = true ->
  has_directive (unlines ls') = true ->
  has_directive (unlines ls) = true.
Proof.
  induction ls as [|l ls IH]; intros ls' HF Hone H.
  - inversion HF; subst. exact H.
  - inversion HF as [|l0 l' ls0 ls'0 [w [-> Hw]] HF']; subst.
    simpl in Hone. apply andb_true_iff in Hone as [Hl Hone].
    destruct ls as [|l2 ls].
    + inversion HF'; subst. cbn [unlines] in H |- *.
      apply has_directive_app_l, H.
    + inversion HF' as [|l3 l2' ls3 ls2' Hc2 HF'']; subst.
      rewrite unlines_cons in H |- * by discriminate.
      rewrite <- app_assoc.
      apply (has_directive_line l' w (unlines (l2' :: ls2'))); try assumption.
      apply IH; assumption.
Qed.

Lemma prefix_one_line l l' w : l = l' ++ w -> one_line l = true -> one_line l' = true.
Proof.
  intros -> H. rewrite one_line_app in H. apply andb_true_iff in H as [H _]. exact H.
Qed.

Lemma space_or_tab_closing c : space_or_tab c = true -> closing_char c = true.
Proof.
  unfold space_or_tab. intros H. apply orb_true_iff in H as [H|H];
    apply Ascii.eqb_eq in H; subst c; reflexivity.
Qed.

Lemma strip_lines_cut l : cut_line l (rstrip_line (strip_line l)).
Proof.
  destruct (before_comment_prefix l None) as (tail & Hl & Ht).
  destruct (rstrip_line_suffix (strip_line l)) as (w & Hs & Hw & _).
  fold (strip_line l) in Hl.
  exists (w ++ tail). split.
  - rewrite app_assoc, <- Hs. exact Hl.
  - destruct w as [|a w].
    + destruct Ht as [->|(t & -> & _)]; [left; reflexivity|right; reflexivity].
    + right. simpl in Hw. apply andb_true_iff in Hw as [Ha _].
      apply space_or_tab_closing, Ha.
Qed.

Lemma strip_lines_one_line l :
  one_line l = true -> one_line (rstrip_line (strip_line l)) = true.
Proof.
  destruct (strip_lines_cut l) as (w & Hl & _). apply (prefix_one_line _ _ _ Hl).
Qed.

Lemma strip_line_one_line l : one_line l = true -> one_line (strip_line l) = true.
Proof.
  destruct (before_comment_prefix l None) as (tail & Hl & _).
  apply (prefix_one_line _ _ _ Hl).
Qed.

Lemma forallb_map_one_line f ls :
  (forall l, one_line l = true -> one_line (f l) = true) ->
  forallb one_line ls = true -> forallb one_line (map f ls) = true.
Proof.
  intros Hf. induction ls as [|l ls IH]; [reflexivity|].
  cbn [map forallb]. intros H. apply andb_true_iff in H as [Hl H].
  rewrite (Hf l Hl), (IH H). reflexivity.
Qed.

(** The content of a file as [read_tex_file] scans it, line by line. *)
Lemma processed_lines s :
  remove_trailing_whitespace (remove_comments s)
  = unlines (map (fun l => rstrip_line (strip_line l)) (lines s)).
Proof.
  rewrite remove_comments_lines, remove_trailing_whitespace_unlines.
  - rewrite map_map. reflexivity.
  - apply forallb_map_one_line; [apply strip_line_one_line|apply lines_one_line].
Qed.

Lemma strip_lines_cut_all ls :
  Forall2 cut_line ls (map (fun l => rstrip_line (strip_line l)) ls).
Proof.
  induction ls as [|l ls IH]; constructor; [apply strip_lines_cut|exact IH].
Qed.

(** Removing comments and trailing white space brings no directive about. *)
Lemma processed_no_directive s :
  has_directive s = false ->
  has_directive (remove_trailing_whitespace (remove_comments s)) = false.
Proof.
  intros H.
  destruct (has_directive (remove_trailing_whitespace (remove_comments s))) eqn:E;
    [|reflexivity].
  rewrite processed_lines in E.
  apply (has_directive_cut_lines (lines s)) in E.
  - rewrite unlines_lines in E. congruence.
  - apply strip_lines_cut_all.
  - apply forallb_map_one_line; [apply strip_lines_one_line|apply lines_one_line].
Qed.

(** ** Computations *)

Lemma bind_return_inv {A B : Type} (m : M A) (f : A -> M B) log b :
  bind m f = (log, Return b) ->
  exists l1 a l2, m = (l1, Return a) /\ f a = (l2, Return b) /\ log = l1 ++ l2.
Proof.
  destruct m as [l1 [a|e]]; cbn [bind]; [|discriminate].
  destruct (f a) as [l2 r] eqn:E. intros H. injection H as <- ->.
  exists l1, a, l2. auto.
Qed.

Lemma bind_return {A B : Type} (a : A) (f : A -> M B) :
  bind ([], Return a) f = f a.
Proof. cbn [bind]. destruct (f a). reflexivity. Qed.

Lemma bind_raise_inv {A B : Type} (m : M A) (f : A -> M B) log e :
  bind m f = (log, Raise e) ->
  m = (log, Raise e)
  \/ exists l1 a l2, m = (l1, Return a) /\ f a = (l2, Raise e) /\ log = l1 ++ l2.
Proof.
  destruct m as [l1 [a|e']]; cbn [bind].
  - destruct (f a) as [l2 r] eqn:E. intros H. injection H as <- ->.
    right. exists l1, a, l2. auto.
  - intros H. injection H as <- <-. left. reflexivity.
Qed.

Lemma except_return_inv {A : Type} (m : M A) h log a :
  except_IOError m h = (log, Return a) ->
  (forall e, snd (h e) = Raise e) ->
  m = (log, Return a).
Proof.
  intros H Hh. destruct m as [l [x|[f| | | | | |]]]; cbn [except_IOError] in H;
    try exact H.
  specialize (Hh (IOError f)). destruct (h (IOError f)) as [l' r].
  simpl in Hh. subst r. discriminate.
Qed.

(** ** The resolver follows its description *)

Section ResolverProperties.

Variable open_read : text -> result text.
Variable path_join : text -> text -> text.
Variable abspath : text -> text.
Variable dirname : text -> text.

Local Abbreviation read_tex_file := (read_tex_file open_read path_join abspath dirname).
Local Abbreviation _sub_line := (_sub_line path_join abspath).
Local Abbreviation target := (target path_join abspath).
Local Abbreviation Resolves := (Resolves open_read path_join abspath).
Local Abbreviation Expands := (Expands open_read path_join abspath).

Lemma full_fname_target root fname :
  abspath (path_join root (full_fname fname)) = target root fname.
Proof.
  unfold target, full_fname.
  destruct (endswith fname (T ".tex")); reflexivity.
Qed.

Lemma read_tex_file_root depth path root_dir :
  read_tex_file depth path root_dir
  = read_tex_file depth path (Some (root_of dirname path root_dir)).
Proof. destruct depth, root_dir; reflexivity. Qed.

Lemma read_tex_file_step depth path root :
  read_tex_file (S depth) path (Some root)
  = match open_read path with
    | Raise e => raise e
    | Return content =>
        sub_pieces (_sub_line (read_tex_file depth) (Some root))
          (finditer input_include_pattern
             (remove_trailing_whitespace (remove_comments content)))
    end.
Proof. reflexivity. Qed.

Lemma sub_line_return_inv read root m log inc :
  _sub_line read (Some root) m = (log, Return inc) ->
  exists fname, group m "filename" = Some fname
                /\ read (target root fname) (Some root) = (log, Return inc).
Proof.
  unfold _sub_line. destruct (group m "filename") as [fname|]; [|discriminate].
  rewrite full_fname_target. intros H. exists fname. split; [reflexivity|].
  apply except_return_inv in H; [exact H|]. intros e. reflexivity.
Qed.

Lemma sub_line_return read root m fname inc :
  group m "filename" = Some fname ->
  read (target root fname) (Some root) = ([], Return inc) ->
  _sub_line read (Some root) m = ([], Return inc).
Proof.
  intros Hg Hr. unfold _sub_line. rewrite Hg, full_fname_target, Hr. reflexivity.
Qed.

(** What the code returns is a resolution. *)
Lemma sub_pieces_expands read root :
  (forall path log inc, read path (Some root) = (log, Return inc) ->
                        Resolves root path inc) ->
  forall ps log out,
    sub_pieces (_sub_line read (Some root)) ps = (log, Return out) ->
    Expands root ps out.
Proof.
  intros Hread. induction ps as [|[c|m] ps IH]; intros log out H.
  - injection H as _ <-. constructor.
  - cbn [sub_pieces] in H. apply bind_return_inv in H as (l1 & o & l2 & H1 & H2 & _).
    injection H2 as _ <-. constructor. eapply IH, H1.
  - cbn [sub_pieces] in H. apply bind_return_inv in H as (l1 & inc & l2 & H1 & H2 & _).
    apply bind_return_inv in H2 as (l3 & o & l4 & H3 & H4 & _).
    injection H4 as _ <-.
    apply sub_line_return_inv in H1 as (fname & Hg & Hr).
    econstructor; eauto.
Qed.

Lemma read_tex_file_sound depth : forall root path log out,
  read_tex_file depth path (Some root) = (log, Return out) ->
  Resolves root path out.
Proof.
  induction depth as [|depth IH]; intros root path log out H; [discriminate|].
  rewrite read_tex_file_step in H.
  destruct (open_read path) as [content|] eqn:E; [|discriminate].
  econstructor; [exact E|].
  eapply sub_pieces_expands; [|exact H].
  intros p l inc. apply IH.
Qed.

(** A resolution is what the code returns once the depth suffices. *)
Lemma resolves_complete root :
  forall path out, Resolves root path out ->
  exists depth, forall d, depth <= d ->
    read_tex_file d path (Some root) = ([], Return out).
Proof.
  apply (Resolves_mutual open_read path_join abspath root
           (fun path out => exists depth, forall d, depth <= d ->
              read_tex_file d path (Some root) = ([], Return out))
           (fun ps out => exists depth, forall d, depth <= d ->
              sub_pieces (_sub_line (read_tex_file d) (Some root)) ps
              = ([], Return out))).
  - intros path content out E _ [n Hn]. exists (S n). intros d Hd.
    destruct d as [|d]; [lia|]. rewrite read_tex_file_step, E. apply Hn. lia.
  - exists 0. reflexivity.
  - intros c ps out _ [n Hn]. exists n. intros d Hd.
    cbn [sub_pieces]. rewrite Hn by exact Hd. reflexivity.
  - intros m fname ps inc out Hg _ [n1 H1] _ [n2 H2]. exists (Nat.max n1 n2).
    intros d Hd. cbn [sub_pieces].
    rewrite (sub_line_return _ root m fname inc Hg (H1 d ltac:(lia))).
    rewrite bind_return, H2 by lia. reflexivity.
Qed.

(** C1. What [read_tex_file] returns for a file is its resolution under the
    root directory of the call: the file's content without comments and
    trailing white space, in which each directive found is replaced by the
    resolution of its target under the same root directory, at every depth.
    The target of a directive is the captured name, with [.tex] appended
    exactly when the name does not end in it, joined to the root directory
    and made absolute.  Conversely every resolution is returned once the
    depth allowed covers the nesting of the includes.  The pieces of the
    scan make up the scanned text, each match standing for the stretch of
    text of a directive, whose file name is the captured name. *)
Theorem read_tex_file_resolves :
  forall path root_dir,
    (forall depth log out,
       read_tex_file depth path root_dir = (log, Return out) ->
       Resolves (root_of dirname path root_dir) path out)
    /\ (forall out,
          Resolves (root_of dirname path root_dir) path out ->
          exists depth, forall d, depth <= d ->
            read_tex_file d path root_dir = ([], Return out))
    /\ (forall root fname,
          target root fname
          = abspath (path_join root
                       (if endswith fname (T ".tex") then fname
                        else fname ++ T ".tex"))
          /\ target root fname = abspath (path_join root (full_fname fname)))
    /\ (forall s,
          source (finditer input_include_pattern s) = s
          /\ forall m,
               In (Found m) (finditer input_include_pattern s) ->
               exists s' d, directive_at s' = Some d /\ m = directive_match d).
Proof.
  intros path root_dir. split; [|split; [|split]].
  - intros depth log out H. rewrite read_tex_file_root in H.
    eapply read_tex_file_sound, H.
  - intros out H. destruct (resolves_complete _ _ _ H) as [n Hn].
    exists n. intros d Hd. rewrite read_tex_file_root. apply Hn, Hd.
  - intros root fname. split; [reflexivity|]. symmetry. apply full_fname_target.
  - intros s. split; [apply finditer_source|].
    intros m. apply input_found_directive.
Qed.

(** ** Files without directives *)

(** C5. A root file whose content holds no inclusion directive resolves to
    exactly its content without comments and trailing white space, character
    for character, with nothing logged, whatever root directory is given and
    however small the depth allowed.  It is enough that the content holds no
    directive once comments and trailing white space are removed.  A text
    holds a directive exactly when the scan for the input pattern finds a
    match in it. *)
Theorem read_tex_file_without_directives :
  (forall path root_dir content depth,
     open_read path = Return content ->
     has_directive content = false
     \/ has_directive (remove_trailing_whitespace (remove_comments content)) = false ->
     read_tex_file (S depth) path root_dir
     = ([], Return (remove_trailing_whitespace (remove_comments content))))
  /\ (forall s,
        has_directive s = false
        <-> forall m, ~ In (Found m) (finditer input_include_pattern s)).
Proof.
  split; [|apply has_directive_finditer].
  intros path root_dir content depth Hopen Hno.
  assert (Hp : has_directive (remove_trailing_whitespace (remove_comments content))
               = false).
  { destruct Hno as [Hno|Hno]; [apply processed_no_directive|]; exact Hno. }
  rewrite read_tex_file_root, read_tex_file_step, Hopen.
  unfold finditer. rewrite scan_no_directive by exact Hp.
  apply sub_pieces_keep.
Qed.

(** ** What is left of the directives *)

Lemma interleave_keep c g gs incs :
  interleave ((c :: g) :: gs) incs = c :: interleave (g :: gs) incs.
Proof. destruct incs; reflexivity. Qed.

Lemma sub_pieces_interleave read root : forall ps log out,
  sub_pieces (_sub_line read (Some root)) ps = (log, Return out) ->
  exists incs,
    Forall2 (fun m inc => exists fname l,
               group m "filename" = Some fname
               /\ read (target root fname) (Some root) = (l, Return inc))
            (hits ps) incs
    /\ out = interleave (gaps ps) incs.
Proof.
  induction ps as [|[c|m] ps IH]; intros log out H.
  - injection H as _ <-. exists []. split; [constructor|reflexivity].
  - cbn [sub_pieces] in H. apply bind_return_inv in H as (l1 & o & l2 & H1 & H2 & _).
    injection H2 as _ <-. destruct (IH _ _ H1) as (incs & HF & ->).
    exists incs. split; [exact HF|]. cbn [gaps].
    destruct (gaps ps) as [|g gs] eqn:Eg; [destruct (gaps_not_nil _ Eg)|].
    symmetry. apply interleave_keep.
  - cbn [sub_pieces] in H. apply bind_return_inv in H as (l1 & inc & l2 & H1 & H2 & _).
    apply bind_return_inv in H2 as (l3 & o & l4 & H3 & H4 & _).
    injection H4 as _ <-. destruct (IH _ _ H3) as (incs & HF & ->).
    apply sub_line_return_inv in H1 as (fname & Hg & Hr).
    exists (inc :: incs). split; [|reflexivity].
    cbn [hits]. constructor; [|exact HF]. eauto.
Qed.

(** C4, as the code has it.  When resolution of a file returns, the file's
    content without comments and trailing white space is cut into the
    directives the pattern matched, from left to right, and the text between
    them.  Every such directive is replaced by the text its target resolved
    to, and the text between the directives holds nothing the pattern
    matches.  The returned text is these stretches and the inserted texts in
    turn; nothing is said about text that begins in one of them and ends in
    another. *)
Theorem read_tex_file_replaces_matches :
  forall path root_dir depth log out,
    read_tex_file (S depth) path root_dir = (log, Return out) ->
    exists content incs,
      open_read path = Return content
      /\ source (finditer input_include_pattern
                   (remove_trailing_whitespace (remove_comments content)))
         = remove_trailing_whitespace (remove_comments content)
      /\ Forall (fun g => has_directive g = false)
           (gaps (finditer input_include_pattern
                    (remove_trailing_whitespace (remove_comments content))))
      /\ Forall2
           (fun m inc => exists fname l,
              group m "filename" = Some fname
              /\ read_tex_file depth
                   (target (root_of dirname path root_dir) fname)
                   (Some (root_of dirname path root_dir))
                 = (l, Return inc))
           (hits (finditer input_include_pattern
                    (remove_trailing_whitespace (remove_comments content))))
           incs
      /\ out = interleave
                 (gaps (finditer input_include_pattern
                          (remove_trailing_whitespace (remove_comments content))))
                 incs.
Proof.
  intros path root_dir depth log out H.
  rewrite read_tex_file_root, read_tex_file_step in H.
  destruct (open_read path) as [content|] eqn:E; [|discriminate].
  apply sub_pieces_interleave in H as (incs & HF & Hout).
  exists content, incs. split; [reflexivity|]. split; [apply finditer_source|].
  split; [apply input_scan_gaps|]. split; assumption.
Qed.

(** ** Failures *)

Local Abbreviation Reads := (Reads open_read path_join abspath).

Local Abbreviation Fails := (Fails open_read path_join abspath).

(** The handler of [_sub_line] passes a text on and adds its record to an
    [IOError]. *)
Lemma sub_line_read read root m fname :
  group m "filename" = Some fname ->
  _sub_line read (Some root) m
  = match read (target root fname) (Some root) with
    | (l, Return inc) => (l, Return inc)
    | (l, Raise e) => (l ++ handler_log e (target root fname), Raise e)
    end.
Proof.
  intros Hg. unfold _sub_line. rewrite Hg, full_fname_target.
  destruct (read (target root fname) (Some root)) as [l [inc|e]]; [reflexivity|].
  destruct e; cbn [except_IOError logger_error raise handler_log is_IOError];
    rewrite ?app_nil_r; reflexivity.
Qed.

Lemma sub_line_raise_inv read root m log e :
  _sub_line read (Some root) m = (log, Raise e) ->
  group m "filename" = None /\ e = AttributeError
  \/ exists fname l,
       group m "filename" = Some fname
       /\ read (target root fname) (Some root) = (l, Raise e).
Proof.
  unfold _sub_line. destruct (group m "filename") as [fname|].
  - rewrite full_fname_target. intros H. right. exists fname.
    destruct (read (target root fname) (Some root)) as [l [x|[f'| | | | | |]]] eqn:Er;
      cbn [except_IOError logger_error raise] in H; try discriminate;
      injection H as <- <-; eauto.
  - intros H. injection H as _ <-. left. auto.
Qed.

(** A text is returned only with an empty log. *)
Lemma sub_pieces_return_log read root :
  (forall p l o, read p (Some root) = (l, Return o) -> l = []) ->
  forall ps log out,
    sub_pieces (_sub_line read (Some root)) ps = (log, Return out) -> log = [].
Proof.
  intros Hret. induction ps as [|[c|m] ps IH]; intros log out H.
  - injection H as <- _. reflexivity.
  - cbn [sub_pieces] in H. apply bind_return_inv in H as (l1 & o & l2 & H1 & H2 & ->).
    injection H2 as <- _. rewrite (IH _ _ H1). reflexivity.
  - cbn [sub_pieces] in H. apply bind_return_inv in H as (l1 & inc & l2 & H1 & H2 & ->).
    apply bind_return_inv in H2 as (l3 & o & l4 & H3 & H4 & ->).
    injection H4 as <- _. rewrite (IH _ _ H3).
    apply sub_line_return_inv in H1 as (fname & _ & Hr).
    rewrite (Hret _ _ _ Hr). reflexivity.
Qed.

Lemma read_tex_file_return_log depth : forall path root log out,
  read_tex_file depth path (Some root) = (log, Return out) -> log = [].
Proof.
  induction depth as [|depth IH]; intros path root log out H; [discriminate|].
  rewrite read_tex_file_step in H.
  destruct (open_read path); [|discriminate].
  eapply sub_pieces_return_log; [|exact H]. intros p l o. apply IH.
Qed.

(** An exception comes out of the first directive whose file does not
    resolve; the handler of that directive adds its record. *)
Lemma sub_pieces_fails read root :
  (forall p l o, read p (Some root) = (l, Return o) ->
                 l = [] /\ Resolves root p o) ->
  forall ps log e,
    (forall m, In (Found m) ps -> exists fname, group m "filename" = Some fname) ->
    sub_pieces (_sub_line read (Some root)) ps = (log, Raise e) ->
    exists pre m rest fname l,
      ps = pre ++ Found m :: rest
      /\ (forall m', In (Found m') pre ->
            exists fname' inc,
              group m' "filename" = Some fname'
              /\ Resolves root (target root fname') inc)
      /\ group m "filename" = Some fname
      /\ read (target root fname) (Some root) = (l, Raise e)
      /\ log = l ++ handler_log e (target root fname).
Proof.
  intros Hret. induction ps as [|[c|m] ps IH]; intros log e Hg H.
  - discriminate.
  - cbn [sub_pieces] in H. apply bind_raise_inv in H as [H|(l1 & o & l2 & _ & H2 & _)];
      [|discriminate].
    destruct (IH _ _ (fun m Hm => Hg m (or_intror Hm)) H)
      as (pre & m & rest & fname & l & -> & Hpre & Hrest).
    exists (Keep c :: pre), m, rest, fname, l. split; [reflexivity|].
    split; [|exact Hrest].
    intros m' [Hm'|Hm']; [discriminate|]. apply Hpre, Hm'.
  - destruct (Hg m (or_introl eq_refl)) as [fname Hf].
    cbn [sub_pieces] in H. rewrite (sub_line_read _ _ _ _ Hf) in H.
    destruct (read (target root fname) (Some root)) as [l [inc|e']] eqn:Er.
    + destruct (Hret _ _ _ Er) as [-> Hinc]. cbn [bind app] in H.
      destruct (sub_pieces (_sub_line read (Some root)) ps) as [l2 [o|e2]] eqn:E2;
        cbn [bind ret] in H; [rewrite app_nil_r in H; discriminate|].
      injection H as <- <-.
      destruct (IH _ _ (fun m Hm => Hg m (or_intror Hm)) eq_refl)
        as (pre & m0 & rest & fname0 & l & -> & Hpre & Hrest).
      exists (Found m :: pre), m0, rest, fname0, l. split; [reflexivity|].
      split; [|exact Hrest].
      intros m' [Hm'|Hm']; [|apply Hpre, Hm'].
      injection Hm' as <-. exists fname, inc. split; assumption.
    + cbn [bind] in H. injection H as <- <-.
      exists [], m, ps, fname, l. split; [reflexivity|].
      split; [intros m' []|]. auto.
Qed.

(** The only exceptions are those of a read that failed and of includes
    nested too deep. *)
Lemma sub_pieces_raise read root :
  forall ps log e,
    (forall m, In (Found m) ps -> exists fname, group m "filename" = Some fname) ->
    sub_pieces (_sub_line read (Some root)) ps = (log, Raise e) ->
    exists p l, read p (Some root) = (l, Raise e).
Proof.
  induction ps as [|[c|m] ps IH]; intros log e Hg H.
  - discriminate.
  - cbn [sub_pieces] in H. apply bind_raise_inv in H as [H|(l1 & o & l2 & _ & H2 & _)].
    + apply (IH _ _ (fun m Hm => Hg m (or_intror Hm)) H).
    + discriminate.
  - cbn [sub_pieces] in H. apply bind_raise_inv in H as [H|(l1 & inc & l2 & _ & H2 & _)].
    + apply sub_line_raise_inv in H as [[Hn _]|(fname & l & _ & Hr)]; [|eauto].
      destruct (Hg m (or_introl eq_refl)) as [fname Hf]. congruence.
    + apply bind_raise_inv in H2 as [H2|(l3 & o & l4 & _ & H4 & _)].
      * apply (IH _ _ (fun m Hm => Hg m (or_intror Hm)) H2).
      * discriminate.
Qed.

Lemma read_tex_file_raise depth : forall path root log e,
  read_tex_file depth path (Some root) = (log, Raise e) ->
  e = RecursionError \/ exists f, open_read f = Raise e.
Proof.
  induction depth as [|depth IH]; intros path root log e H.
  - injection H as _ <-. left. reflexivity.
  - rewrite read_tex_file_step in H.
    destruct (open_read path) as [content|e'] eqn:E.
    + apply sub_pieces_raise in H as (p & l & Hr); [apply (IH _ _ _ _ Hr)|].
      intros m. apply input_found_filename.
    + injection H as _ <-. right. eauto.
Qed.

(** A text is returned only if every file asked for could be read. *)
Lemma sub_pieces_return_all read root : forall ps log out,
  sub_pieces (_sub_line read (Some root)) ps = (log, Return out) ->
  forall m, In (Found m) ps ->
    exists fname l inc,
      group m "filename" = Some fname
      /\ read (target root fname) (Some root) = (l, Return inc).
Proof.
  induction ps as [|[c|m0] ps IH]; intros log out H m Hm.
  - destruct Hm.
  - destruct Hm as [Hm|Hm]; [discriminate|].
    cbn [sub_pieces] in H. apply bind_return_inv in H as (l1 & o & l2 & H1 & _ & _).
    apply (IH _ _ H1 m Hm).
  - cbn [sub_pieces] in H. apply bind_return_inv in H as (l1 & inc & l2 & H1 & H2 & _).
    apply bind_return_inv in H2 as (l3 & o & l4 & H3 & _ & _).
    destruct Hm as [Hm|Hm]; [|apply (IH _ _ H3 m Hm)].
    injection Hm as <-. apply sub_line_return_inv in H1 as (fname & Hg & Hr). eauto.
Qed.


(** An outcome other than running out of depth does not change when more
    depth is allowed. *)
Lemma sub_line_mono read1 read2 root m log r :
  (forall p l r', read1 p (Some root) = (l, r') -> r' <> Raise RecursionError ->
                  read2 p (Some root) = (l, r')) ->
  _sub_line read1 (Some root) m = (log, r) -> r <> Raise RecursionError ->
  _sub_line read2 (Some root) m = (log, r).
Proof.
  intros Hmono. unfold _sub_line.
  destruct (group m "filename") as [fname|]; [|auto].
  destruct (read1 (abspath (path_join root (full_fname fname))) (Some root))
    as [l r1] eqn:E1.
  intros H Hr.
  assert (Hr1 : r1 <> Raise RecursionError).
  { intros ->. cbn [except_IOError] in H. injection H as _ <-. auto. }
  rewrite (Hmono _ _ _ E1 Hr1). exact H.
Qed.

Lemma sub_pieces_mono read1 read2 root :
  (forall p l r', read1 p (Some root) = (l, r') -> r' <> Raise RecursionError ->
                  read2 p (Some root) = (l, r')) ->
  forall ps log r,
    sub_pieces (_sub_line read1 (Some root)) ps = (log, r) ->
    r <> Raise RecursionError ->
    sub_pieces (_sub_line read2 (Some root)) ps = (log, r).
Proof.
  intros Hmono. induction ps as [|[c|m] ps IH]; intros log r H Hr.
  - exact H.
  - cbn [sub_pieces] in H |- *.
    destruct (sub_pieces (_sub_line read1 (Some root)) ps) as [l1 [o|e]] eqn:E1.
    + rewrite (IH _ _ eq_refl) by discriminate. exact H.
    + cbn [bind] in H. injection H as <- <-.
      rewrite (IH _ _ eq_refl Hr). reflexivity.
  - cbn [sub_pieces] in H |- *.
    destruct (_sub_line read1 (Some root) m) as [l1 [inc|e]] eqn:E1.
    + rewrite (sub_line_mono _ _ _ _ _ _ Hmono E1) by discriminate.
      cbn [bind] in H |- *.
      destruct (sub_pieces (_sub_line read1 (Some root)) ps) as [l2 [o|e]] eqn:E2.
      * rewrite (IH _ _ eq_refl) by discriminate. exact H.
      * cbn [bind] in H. injection H as <- <-.
        rewrite (IH _ _ eq_refl Hr). reflexivity.
    + cbn [bind] in H. injection H as <- <-.
      rewrite (sub_line_mono _ _ _ _ _ _ Hmono E1 Hr). reflexivity.
Qed.

Lemma read_tex_file_deeper depth : forall path root log r,
  read_tex_file depth path (Some root) = (log, r) ->
  r <> Raise RecursionError ->
  read_tex_file (S depth) path (Some root) = (log, r).
Proof.
  induction depth as [|depth IH]; intros path root log r H Hr.
  - injection H as _ <-. congruence.
  - rewrite read_tex_file_step in H |- *.
    destruct (open_read path) as [content|]; [|exact H].
    eapply sub_pieces_mono; [|exact H|exact Hr].
    intros p l r'. apply IH.
Qed.

Lemma read_tex_file_stable depth path root log r :
  read_tex_file depth path (Some root) = (log, r) ->
  r <> Raise RecursionError ->
  forall d, depth <= d -> read_tex_file d path (Some root) = (log, r).
Proof.
  intros H Hr d Hd. induction Hd as [|d Hd IH]; [exact H|].
  apply read_tex_file_deeper; assumption.
Qed.

(** ** Which failure comes out, and what is logged *)

(** An exception that comes out is a [RecursionError] with nothing logged, or
    the failure of a read as [Fails] describes it. *)
Lemma read_tex_file_fails depth : forall path root log e,
  read_tex_file depth path (Some root) = (log, Raise e) ->
  (e = RecursionError /\ log = []) \/ exists f, Fails root path f e log.
Proof.
  induction depth as [|depth IH]; intros path root log e H.
  - injection H as <- <-. left. auto.
  - rewrite read_tex_file_step in H.
    destruct (open_read path) as [content|e'] eqn:E.
    + apply sub_pieces_fails in H
        as (pre & m & rest & fname & l & Hps & Hpre & Hg & Hr & ->).
      * destruct (IH _ _ _ _ Hr) as [[-> ->]|[f Hf]].
        -- left. auto.
        -- right. exists f. eapply Fails_include; eauto.
      * intros p l o Hp. split.
        -- eapply read_tex_file_return_log, Hp.
        -- eapply read_tex_file_sound, Hp.
      * intros m. apply input_found_filename.
    + injection H as <- <-. right. exists path. constructor. exact E.
Qed.

(** The file that failed is one that resolution asked for. *)
Lemma Fails_reads root path f e log :
  Fails root path f e log -> Reads root path f /\ open_read f = Raise e.
Proof.
  induction 1 as [path e He|path content pre m rest fname f e log Ho Hps Hpre Hg _ [IH1 IH2]].
  - split; [constructor|exact He].
  - split; [|exact IH2].
    eapply Reads_include; [exact Ho| |exact Hg|exact IH1].
    rewrite Hps. apply in_or_app. right. left. reflexivity.
Qed.


(** Directives whose replacement returns a text with nothing logged are
    passed. *)
Lemma sub_pieces_raise_behind (repl : match_obj -> M text) pre ps l e :
  (forall m', In (Found m') pre -> exists inc, repl m' = ([], Return inc)) ->
  sub_pieces repl ps = (l, Raise e) ->
  sub_pieces repl (pre ++ ps) = (l, Raise e).
Proof.
  intros Hpre Hps. induction pre as [|[c|m] pre IH].
  - exact Hps.
  - cbn [app sub_pieces]. rewrite IH; [reflexivity|].
    intros m' Hm'. apply Hpre. right. exact Hm'.
  - destruct (Hpre m (or_introl eq_refl)) as [inc Hinc].
    cbn [app sub_pieces]. rewrite Hinc, IH; [reflexivity|].
    intros m' Hm'. apply Hpre. right. exact Hm'.
Qed.

(** Directives that resolve do so once the depth suffices. *)
Lemma resolved_depth root pre :
  (forall m', In (Found m') pre ->
     exists fname' inc,
       group m' "filename" = Some fname'
       /\ Resolves root (target root fname') inc) ->
  exists depth, forall d, depth <= d ->
    forall m', In (Found m') pre ->
      exists inc, _sub_line (read_tex_file d) (Some root) m' = ([], Return inc).
Proof.
  induction pre as [|[c|m] pre IH]; intros Hpre.
  - exists 0. intros d _ m' [].
  - destruct IH as [depth IH].
    + intros m' Hm'. apply Hpre. right. exact Hm'.
    + exists depth. intros d Hd m' [Hm'|Hm']; [discriminate|]. apply (IH d Hd m' Hm').
  - destruct IH as [depth2 IH].
    + intros m' Hm'. apply Hpre. right. exact Hm'.
    + destruct (Hpre m (or_introl eq_refl)) as (fname & inc & Hg & Hres).
      destruct (resolves_complete _ _ _ Hres) as [depth1 H1].
      exists (Nat.max depth1 depth2). intros d Hd m' [Hm'|Hm'].
      * injection Hm' as <-. exists inc.
        apply (sub_line_return _ _ _ _ _ Hg). apply H1. lia.
      * apply (IH d); [lia|exact Hm'].
Qed.

(** A failure that [Fails] describes is what the code ends in once the depth
    suffices. *)
Lemma fails_complete root path f e log :
  Fails root path f e log ->
  exists depth, forall d, depth <= d ->
    read_tex_file d path (Some root) = (log, Raise e).
Proof.
  induction 1 as [path e He|path content pre m rest fname f e log Ho Hps Hpre Hg _ [depth1 IH]].
  - exists 1. intros [|d] Hd; [lia|]. rewrite read_tex_file_step, He. reflexivity.
  - destruct (resolved_depth _ _ Hpre) as [depth2 H2].
    exists (S (Nat.max depth1 depth2)). intros [|d] Hd; [lia|].
    rewrite read_tex_file_step, Ho, Hps.
    apply sub_pieces_raise_behind; [apply H2; lia|].
    cbn [sub_pieces]. rewrite (sub_line_read _ _ _ _ Hg), IH by lia. reflexivity.
Qed.


(** ** More depth, same outcome *)

(** X3. Whatever [read_tex_file] ends in at some depth, other than the
    [RecursionError] of includes nested too deep, it ends in at every
    greater depth, with the same log. *)
Theorem read_tex_file_depth_stable :
  forall depth path root_dir log r,
    read_tex_file depth path root_dir = (log, r) ->
    r <> Raise RecursionError ->
    forall d, depth <= d -> read_tex_file d path root_dir = (log, r).
Proof.
  intros depth path root_dir log r H Hr d Hd.
  rewrite read_tex_file_root in H |- *.
  apply (read_tex_file_stable _ _ _ _ _ H Hr d Hd).
Qed.

(** ** [process_inputs] without a root directory *)

Lemma sub_pieces_no_root read pre m rest fname :
  group m "filename" = Some fname ->
  sub_pieces (_sub_line read None) (map Keep pre ++ Found m :: rest)
  = ([], Raise TypeError).
Proof.
  intros Hg. induction pre as [|c pre IH].
  - cbn [map app sub_pieces]. unfold _sub_line at 1. rewrite Hg. reflexivity.
  - cbn [map app sub_pieces]. rewrite IH. reflexivity.
Qed.

(** X4. Called without a root directory, [process_inputs] returns a text
    without directives as it is, and ends in a [TypeError] for a text that
    holds a directive: [os.path.join] is given [None]. *)
Theorem process_inputs_without_root :
  forall depth tex_source,
    (has_directive tex_source = false ->
       process_inputs open_read path_join abspath dirname depth tex_source None
       = ([], Return tex_source))
    /\ (has_directive tex_source = true ->
          process_inputs open_read path_join abspath dirname depth tex_source None
          = ([], Raise TypeError)).
Proof.
  intros depth tex_source.
  unfold process_inputs, process_inputs_with, re_sub_callable, finditer. split.
  - intros H. rewrite scan_no_directive by exact H. apply sub_pieces_keep.
  - intros H.
    destruct (scan_first_directive tex_source None H)
      as (pre & m & rest & -> & fname & Hg).
    apply (sub_pieces_no_root _ _ _ _ _ Hg).
Qed.

End ResolverProperties.

(** ** The project of the examples *)

Lemma read_tex_file_resolves_witness :
  Resolves project posix_join plain_abspath (T "/proj") (T "/proj/main.tex")
    (T "pre A[B" ++ newline :: T "]" ++ newline :: T "end").
Proof.
  refine (proj1 (read_tex_file_resolves project posix_join plain_abspath
                   plain_dirname (T "/proj/main.tex") None) 3 [] _ _).
  vm_compute. reflexivity.
Defined.

Lemma read_tex_file_without_directives_witness :
  read_tex_file project posix_join plain_abspath plain_dirname 1
    (T "/proj/plain.tex") None
  = ([], Return (T "no directive \% here" ++ newline :: T "end")).
Proof.
  refine (proj1 (read_tex_file_without_directives project posix_join plain_abspath
                   plain_dirname) (T "/proj/plain.tex") None
            (T "no directive \% here % \input{a}  " ++ newline :: T "end ") 0 _ _).
  - vm_compute. reflexivity.
  - right. vm_compute. reflexivity.
Defined.

(** The text put in for a directive and the text behind it can make up a
    directive: [splice.tex] holds [\input{cmd}{b} ] and [cmd.tex] holds
    [\input]; the result is [\input{b}], which the pattern matches. *)
Lemma read_tex_file_leaves_directive :
  read_tex_file project posix_join plain_abspath plain_dirname 2
    (T "/proj/splice.tex") None
  = ([], Return (T "\input{b}"))
  /\ has_directive (T "\input{b}") = true
  /\ hits (finditer input_include_pattern (T "\input{b}"))
     = [Match (T "\input{b}")
              [("filename"%string, T "b"); ("command"%string, T "input")]].
Proof. vm_compute. repeat split. Qed.

Lemma read_tex_file_replaces_matches_witness :
  exists content incs,
    project (T "/proj/main.tex") = Return content
    /\ T "pre A[B" ++ newline :: T "]" ++ newline :: T "end"
       = interleave
           (gaps (finditer input_include_pattern
                    (remove_trailing_whitespace (remove_comments content))))
           incs.
Proof.
  destruct (read_tex_file_replaces_matches project posix_join plain_abspath
              plain_dirname (T "/proj/main.tex") None 2 []
              (T "pre A[B" ++ newline :: T "]" ++ newline :: T "end"))
    as (content & incs & H1 & _ & _ & _ & H5).
  - vm_compute. reflexivity.
  - exists content, incs. split; assumption.
Defined.



Lemma read_tex_file_depth_stable_witness :
  read_tex_file project posix_join plain_abspath plain_dirname 7
    (T "/proj/main.tex") None
  = ([], Return (T "pre A[B" ++ newline :: T "]" ++ newline :: T "end")).
Proof.
  refine (read_tex_file_depth_stable project posix_join plain_abspath
            plain_dirname 3 (T "/proj/main.tex") None [] _ _ _ 7 _).
  - vm_compute. reflexivity.
  - discriminate.
  - repeat constructor.
Defined.

Lemma process_inputs_without_root_witness :
  process_inputs project posix_join plain_abspath plain_dirname 3
    (T "see \input{parts/a} ") None
  = ([], Raise TypeError).
Proof.
  refine (proj2 (process_inputs_without_root project posix_join plain_abspath
                   plain_dirname 3 (T "see \input{parts/a} ")) _).
  vm_compute. reflexivity.
Defined.

(** ** The matcher and the scan *)

(** X1. The input pattern matches at a position exactly when a directive
    starts there: a backslash, [input] or [include], spaces, opening braces,
    a file name and one closing character; the match is that stretch of text
    and its groups are the command and the file name.  What comes before the
    position plays no part. *)
Theorem input_include_pattern_matches_directives :
  forall b s must_advance,
    match_at input_include_pattern b s must_advance
    = option_map directive_match (directive_at s).
Proof. exact input_match. Qed.

(** X2. For every pattern, the pieces of a scan, with each match standing
    for the text it matched, make up the text scanned: [re.sub] changes
    nothing outside the matches. *)
Theorem finditer_partitions_text :
  forall r s, source (finditer r s) = s.
Proof. exact finditer_source. Qed.

(** ** The patterns for one command *)

Lemma first_match_after_command adv cmd c s1 g :
  Ascii.eqb backslash c = true ->
  starts_with cmd s1 = true ->
  first_match adv
    (run blanks_part
       (Cursor (behind_after (Some c) cmd) (skipn (length cmd) s1)
               (rev cmd ++ [c]) g))
  = option_map (fun d => Match (d_text d) (("filename"%string, d_filename d) :: g))
               (directive_with cmd (c :: s1)).
Proof.
  intros Hc Hs. unfold directive_with. rewrite Hc, Hs. cbn [andb].
  rewrite run_blanks_part, run_braces_part, run_filename_part.
  set (s2 := skipn (length cmd) s1).
  set (blanks := take_while is_blank s2).
  set (s3 := drop_while is_blank s2).
  set (braces := take_while is_lbrace s3).
  set (s4 := drop_while is_lbrace s3).
  destruct (take_while filename_char s4) as [|a w]; [reflexivity|].
  destruct (drop_while filename_char s4) as [|t rest]; [reflexivity|].
  destruct (closing_char t); [|reflexivity].
  unfold first_match. cbn [filter eaten length Nat.eqb negb orb].
  rewrite orb_true_r. cbn [option_map eaten groups d_text d_filename].
  f_equal. f_equal.
  generalize (a :: w) as fname. intros fname.
  change (rev (t :: rev fname ++ rev braces ++ rev blanks ++ rev cmd ++ [c]))
    with (rev (rev fname ++ rev braces ++ rev blanks ++ rev cmd ++ [c]) ++ [t]).
  rewrite !rev_app_distr, !rev_involutive. cbn [rev app].
  rewrite <- !app_assoc. reflexivity.
Qed.

(** A pattern for one command matches where a directive with that command
    starts. *)
Lemma command_pattern_match cmd b s adv :
  match_at (Cat (Chr backslash) (Cat (Str cmd) blanks_part)) b s adv
  = option_map filename_match (directive_with cmd s).
Proof.
  rewrite match_at_first_match.
  destruct s as [|c s1]; [reflexivity|].
  cbn [run eat_if ahead eaten groups behind].
  destruct (Ascii.eqb backslash c) eqn:Hc;
    [|unfold directive_with; rewrite Hc; reflexivity].
  cbn [flat_map]. rewrite app_nil_r, run_str.
  destruct (starts_with cmd s1) eqn:Hs;
    [|unfold directive_with; rewrite Hc, Hs; reflexivity].
  cbn [flat_map]. rewrite app_nil_r.
  apply (first_match_after_command adv cmd c s1 [] Hc Hs).
Qed.

Lemma directive_with_command cmd s d :
  directive_with cmd s = Some d -> d_command d = cmd.
Proof.
  unfold directive_with. destruct s as [|c s1]; [discriminate|].
  destruct (Ascii.eqb backslash c && starts_with cmd s1); [|discriminate].
  destruct (take_while filename_char _) as [|a w]; [discriminate|].
  destruct (drop_while filename_char _) as [|t rest]; [discriminate|].
  destruct (closing_char t); [|discriminate].
  intros H. injection H as <-. reflexivity.
Qed.

Lemma input_not_include s1 :
  starts_with (T "input") s1 = true -> starts_with (T "include") s1 = false.
Proof.
  intros H. apply starts_with_split in H. rewrite H. reflexivity.
Qed.

(** X5. At every position the combined pattern [input_include_pattern] finds
    what [input_pattern] finds there or else what [include_pattern] finds
    there: the same stretch of text and the same file name, with the command
    as a further group.  The two single patterns never match at the same
    position. *)
Theorem input_include_pattern_is_union :
  forall b s must_advance,
    match_at input_include_pattern b s must_advance
    = match match_at input_pattern b s must_advance with
      | Some m => Some (with_command (T "input") m)
      | None =>
          option_map (with_command (T "include"))
                     (match_at include_pattern b s must_advance)
      end
    /\ (match_at input_pattern b s must_advance = None
        \/ match_at include_pattern b s must_advance = None).
Proof.
  intros b s adv.
  change input_pattern with (Cat (Chr backslash) (Cat (Str (T "input")) blanks_part)).
  change include_pattern with (Cat (Chr backslash) (Cat (Str (T "include")) blanks_part)).
  rewrite input_match, !command_pattern_match. unfold directive_at. split.
  - destruct (directive_with (T "input") s) as [d|] eqn:E1.
    + cbn [option_map]. unfold directive_match, with_command, filename_match.
      cbn [matched named app]. rewrite (directive_with_command _ _ _ E1).
      reflexivity.
    + destruct (directive_with (T "include") s) as [d|] eqn:E2; [|reflexivity].
      cbn [option_map]. unfold directive_match, with_command, filename_match.
      cbn [matched named app]. rewrite (directive_with_command _ _ _ E2).
      reflexivity.
  - destruct s as [|c s1]; [left; reflexivity|].
    unfold directive_with.
    destruct (Ascii.eqb backslash c); [|left; reflexivity]. cbn [andb].
    destruct (starts_with (T "input") s1) eqn:Hs; [|left; reflexivity].
    right. rewrite (input_not_include s1 Hs). reflexivity.
Qed.

(** ** Lines of joined texts *)

Lemma lines_app_newline a b : lines (a ++ newline :: b) = lines a ++ lines b.
Proof.
  induction a as [|c a IH].
  - cbn [app lines]. rewrite Ascii.eqb_refl. reflexivity.
  - cbn [app lines]. destruct (Ascii.eqb c newline).
    + rewrite IH. reflexivity.
    + rewrite IH. destruct (lines a) as [|l ls] eqn:E; [destruct (lines_not_nil _ E)|].
      reflexivity.
Qed.

Lemma lines_one l : one_line l = true -> lines l = [l].
Proof.
  induction l as [|c l IH]; [reflexivity|].
  intros H. simpl in H. apply andb_true_iff in H as [Hc Hl].
  cbn [lines]. unfold any_but_newline in Hc. apply negb_true_iff in Hc.
  rewrite Hc, (IH Hl). reflexivity.
Qed.

Lemma lines_unlines ls :
  ls <> [] -> forallb one_line ls = true -> lines (unlines ls) = ls.
Proof.
  induction ls as [|l ls IH]; intros Hne H; [congruence|].
  simpl in H. apply andb_true_iff in H as [Hl Hls].
  destruct ls as [|l2 ls].
  - cbn [unlines]. apply lines_one, Hl.
  - rewrite unlines_cons by discriminate.
    rewrite lines_app_newline, (lines_one l Hl), IH by (assumption || discriminate).
    reflexivity.
Qed.

Lemma unlines_app x y :
  x <> [] -> y <> [] -> unlines (x ++ y) = unlines x ++ newline :: unlines y.
Proof.
  induction x as [|l x IH]; intros Hx Hy; [congruence|].
  destruct x as [|l2 x].
  - cbn [app]. rewrite unlines_cons by exact Hy. reflexivity.
  - cbn [app]. rewrite (unlines_cons l (l2 :: x ++ y)) by discriminate.
    rewrite (unlines_cons l (l2 :: x)) by discriminate.
    change (l2 :: x ++ y) with ((l2 :: x) ++ y).
    rewrite IH by (assumption || discriminate).
    rewrite <- app_assoc. reflexivity.
Qed.

Lemma map_not_nil {A B : Type} (f : A -> B) l : l <> [] -> map f l <> [].
Proof. destruct l; [congruence|discriminate]. Qed.

(** A transform that maps the lines of a text works on each side of a
    newline by itself. *)
Lemma line_map_split (f : text -> text) a b :
  unlines (map f (lines (a ++ newline :: b)))
  = unlines (map f (lines a)) ++ newline :: unlines (map f (lines b)).
Proof.
  rewrite lines_app_newline, map_app.
  apply unlines_app; apply map_not_nil, lines_not_nil.
Qed.

Lemma remove_trailing_whitespace_lines s :
  remove_trailing_whitespace s = unlines (map rstrip_line (lines s)).
Proof.
  rewrite <- (unlines_lines s) at 1.
  apply remove_trailing_whitespace_unlines, lines_one_line.
Qed.

(** X6. Both leaf transforms work on each side of a newline by itself: the
    result for two texts joined by a newline is the two results joined by a
    newline.  No comment and no run of blanks reaches across a newline. *)
Theorem leaf_transforms_split_at_newline :
  forall a b,
    remove_comments (a ++ newline :: b)
    = remove_comments a ++ newline :: remove_comments b
    /\ remove_trailing_whitespace (a ++ newline :: b)
       = remove_trailing_whitespace a ++ newline :: remove_trailing_whitespace b.
Proof.
  intros a b. split.
  - rewrite !remove_comments_lines. apply line_map_split.
  - rewrite !remove_trailing_whitespace_lines. apply line_map_split.
Qed.

(** ** Doing it twice *)

Lemma before_comment_idem l : forall e,
  before_comment e (before_comment e l) = before_comment e l.
Proof.
  induction l as [|c l IH]; intros e; [reflexivity|].
  cbn [before_comment].
  destruct (Ascii.eqb c percent && negb e) eqn:E; [reflexivity|].
  cbn [before_comment]. rewrite E, IH. reflexivity.
Qed.

(** A text in front of what [before_comment] keeps is kept whole. *)
Lemma before_comment_prefix_fixed x : forall e l w,
  before_comment e l = x ++ w -> before_comment e x = x.
Proof.
  induction x as [|c x IH]; intros e l w H; [reflexivity|].
  destruct l as [|c' l]; [discriminate|].
  cbn [before_comment] in H.
  destruct (Ascii.eqb c' percent && negb e) eqn:E; [discriminate|].
  cbn [app] in H. injection H as -> H.
  cbn [before_comment]. rewrite E. f_equal. apply (IH _ _ _ H).
Qed.

Lemma drop_while_idem p x : drop_while p (drop_while p x) = drop_while p x.
Proof.
  induction x as [|c x IH]; [reflexivity|].
  cbn [drop_while]. destruct (p c) eqn:E; [exact IH|].
  cbn [drop_while]. rewrite E. reflexivity.
Qed.

Lemma rstrip_line_idem l : rstrip_line (rstrip_line l) = rstrip_line l.
Proof.
  unfold rstrip_line. rewrite rev_involutive, drop_while_idem. reflexivity.
Qed.

Lemma strip_line_rstrip l :
  strip_line (rstrip_line (strip_line l)) = rstrip_line (strip_line l).
Proof.
  destruct (rstrip_line_suffix (strip_line l)) as (w & Hs & _).
  apply (before_comment_prefix_fixed _ false l w). exact Hs.
Qed.

Lemma rstrip_line_one_line l : one_line l = true -> one_line (rstrip_line l) = true.
Proof.
  destruct (rstrip_line_suffix l) as (w & Hl & _).
  apply (prefix_one_line _ _ _ Hl).
Qed.

Lemma map_fixed {A : Type} (f g : A -> A) l :
  (forall x, f (g x) = g x) -> map f (map g l) = map g l.
Proof.
  intros H. rewrite map_map. apply map_ext. exact H.
Qed.

Lemma processed_without_comments s :
  remove_comments (remove_trailing_whitespace (remove_comments s))
  = remove_trailing_whitespace (remove_comments s).
Proof.
  rewrite processed_lines.
  rewrite remove_comments_unlines
    by (apply forallb_map_one_line; [apply strip_lines_one_line|apply lines_one_line]).
  rewrite (map_fixed strip_line (fun l => rstrip_line (strip_line l)));
    [reflexivity|]. apply strip_line_rstrip.
Qed.

(** X7. Each leaf transform changes nothing when it is applied a second
    time, and the text [read_tex_file] passes on, comments removed first and
    trailing white space second, is left as it is by both. *)
Theorem leaf_transforms_idempotent :
  forall s,
    remove_comments (remove_comments s) = remove_comments s
    /\ remove_trailing_whitespace (remove_trailing_whitespace s)
       = remove_trailing_whitespace s
    /\ remove_comments (remove_trailing_whitespace (remove_comments s))
       = remove_trailing_whitespace (remove_comments s)
    /\ remove_trailing_whitespace (remove_trailing_whitespace (remove_comments s))
       = remove_trailing_whitespace (remove_comments s).
Proof.
  intros s. split; [|split; [|split]].
  - rewrite (remove_comments_lines s).
    rewrite remove_comments_unlines
      by (apply forallb_map_one_line; [apply strip_line_one_line|apply lines_one_line]).
    rewrite (map_fixed strip_line strip_line); [reflexivity|].
    intros l. apply before_comment_idem.
  - rewrite (remove_trailing_whitespace_lines s).
    rewrite remove_trailing_whitespace_unlines
      by (apply forallb_map_one_line; [apply rstrip_line_one_line|apply lines_one_line]).
    rewrite (map_fixed rstrip_line rstrip_line); [reflexivity|].
    apply rstrip_line_idem.
  - apply processed_without_comments.
  - rewrite processed_lines.
    rewrite remove_trailing_whitespace_unlines
      by (apply forallb_map_one_line; [apply strip_lines_one_line|apply lines_one_line]).
    rewrite (map_fixed rstrip_line (fun l => rstrip_line (strip_line l)));
      [reflexivity|]. intros l. apply rstrip_line_idem.
Qed.

(** ** Lines stay where they are *)

Lemma strip_line_prefix l : exists w, l = strip_line l ++ w.
Proof.
  destruct (before_comment_prefix l None) as (w & H & _). exists w. exact H.
Qed.

Lemma rstrip_line_prefix l : exists w, l = rstrip_line l ++ w.
Proof.
  destruct (rstrip_line_suffix l) as (w & H & _). exists w. exact H.
Qed.

Lemma map_prefixes (f : text -> text) ls :
  (forall l, exists w, l = f l ++ w) ->
  Forall2 (fun l' l => exists w, l = l' ++ w) (map f ls) ls.
Proof.
  intros Hf. induction ls as [|l ls IH]; constructor; [apply Hf|exact IH].
Qed.

Lemma unlines_length_le ls' : forall ls,
  Forall2 (fun l' l : text => exists w, l = l' ++ w) ls' ls ->
  length (unlines ls') <= length (unlines ls).
Proof.
  induction ls' as [|l' ls' IH]; intros ls H.
  - inversion H; subst. apply le_n.
  - inversion H as [|x l y ls0 [w Hw] H']; subst.
    destruct ls' as [|l2' ls'].
    + inversion H'; subst. cbn [unlines]. rewrite length_app. lia.
    + inversion H' as [|x2 l2 y2 ls2 Hw2 H'']; subst.
      rewrite (unlines_cons l' (l2' :: ls')) by discriminate.
      rewrite (unlines_cons (l' ++ w) (l2 :: ls2)) by discriminate.
      specialize (IH _ H'). rewrite !length_app. cbn [length].
      lia.
Qed.

(** X8. Both leaf transforms keep the lines of a text in place: the result
    has as many lines as the text, each of them the beginning of the line it
    comes from, so no newline is removed or added and the result is never
    longer than the text. *)
Theorem leaf_transforms_keep_lines :
  forall s,
    Forall2 (fun l' l => exists w, l = l' ++ w) (lines (remove_comments s)) (lines s)
    /\ Forall2 (fun l' l => exists w, l = l' ++ w)
         (lines (remove_trailing_whitespace s)) (lines s)
    /\ length (lines (remove_comments s)) = length (lines s)
    /\ length (lines (remove_trailing_whitespace s)) = length (lines s)
    /\ length (remove_comments s) <= length s
    /\ length (remove_trailing_whitespace s) <= length s.
Proof.
  intros s.
  assert (Hc : lines (remove_comments s) = map strip_line (lines s)).
  { rewrite remove_comments_lines. apply lines_unlines.
    - apply map_not_nil, lines_not_nil.
    - apply forallb_map_one_line; [apply strip_line_one_line|apply lines_one_line]. }
  assert (Ht : lines (remove_trailing_whitespace s) = map rstrip_line (lines s)).
  { rewrite remove_trailing_whitespace_lines. apply lines_unlines.
    - apply map_not_nil, lines_not_nil.
    - apply forallb_map_one_line; [apply rstrip_line_one_line|apply lines_one_line]. }
  rewrite Hc, Ht, !length_map.
  repeat split.
  - apply map_prefixes, strip_line_prefix.
  - apply map_prefixes, rstrip_line_prefix.
  - rewrite remove_comments_lines. rewrite <- (unlines_lines s) at 2.
    apply unlines_length_le, map_prefixes, strip_line_prefix.
  - rewrite remove_trailing_whitespace_lines. rewrite <- (unlines_lines s) at 2.
    apply unlines_length_le, map_prefixes, rstrip_line_prefix.
Qed.

(** ** Lines that do not end in a blank *)

Lemma drop_while_head_false p x : head_in p x = false -> drop_while p x = x.
Proof.
  destruct x as [|c x]; [reflexivity|]. simpl. intros H. rewrite H. reflexivity.
Qed.

Lemma rstrip_line_fixed l : ends_blank l = false -> rstrip_line l = l.
Proof.
  unfold ends_blank, starts_blank, rstrip_line. intros H.
  rewrite (drop_while_head_false _ _ H). apply rev_involutive.
Qed.

Lemma map_rstrip_fixed ls :
  forallb (fun l => negb (ends_blank l)) ls = true -> map rstrip_line ls = ls.
Proof.
  induction ls as [|l ls IH]; [reflexivity|].
  cbn [forallb map]. intros H. apply andb_true_iff in H as [Hl H].
  apply negb_true_iff in Hl. rewrite (rstrip_line_fixed l Hl), (IH H). reflexivity.
Qed.

(** X9. [remove_trailing_whitespace] returns a text none of whose lines ends
    in a space or tab as it is.  A line that ends in a carriage return is
    such a line: in a text with CR LF line ends the blanks in front of the
    carriage returns stay. *)
Theorem remove_trailing_whitespace_needs_blank_ends :
  (forall s,
     forallb (fun l => negb (ends_blank l)) (lines s) = true ->
     remove_trailing_whitespace s = s)
  /\ (forall l, ends_blank (l ++ [carriage_return]) = false).
Proof.
  split.
  - intros s H. rewrite remove_trailing_whitespace_lines, (map_rstrip_fixed _ H).
    apply unlines_lines.
  - intros l. unfold ends_blank. rewrite rev_app_distr. reflexivity.
Qed.

Lemma remove_trailing_whitespace_needs_blank_ends_witness :
  remove_trailing_whitespace
    (T "a  " ++ carriage_return :: newline :: T "b" ++ tab :: [carriage_return; newline])
  = T "a  " ++ carriage_return :: newline :: T "b" ++ tab :: [carriage_return; newline].
Proof.
  apply (proj1 remove_trailing_whitespace_needs_blank_ends). reflexivity.
Defined.

(** ** An empty macro name *)

Lemma empty_name_match_backslash b c s adv :
  Ascii.eqb backslash c = true ->
  match_at (macro_pattern []) b (c :: s) adv = Some (Match [c] []).
Proof.
  intros Hc. unfold match_at. rewrite macro_run. cbn [starts_with length skipn rev].
  rewrite Hc. cbn [app filter eaten length Nat.eqb negb]. rewrite orb_true_r.
  reflexivity.
Qed.

Lemma empty_name_match_other b c s :
  Ascii.eqb backslash c = false ->
  match_at (macro_pattern []) b (c :: s) false = Some (Match [] [])
  /\ match_at (macro_pattern []) b (c :: s) true = None.
Proof.
  intros Hc. unfold match_at. rewrite macro_run. cbn [starts_with length skipn rev].
  rewrite Hc. split; reflexivity.
Qed.

Lemma empty_name_match_end b : match_at (macro_pattern []) b [] false = Some (Match [] []).
Proof. reflexivity. Qed.

Lemma empty_name_scan content s : forall b,
  render (fun _ => content) (scan (macro_pattern []) b s 0) = interleaved content s.
Proof.
  induction s as [|c s IH]; intros b.
  - cbn [scan]. rewrite empty_name_match_end. cbn [render flat_map interleaved].
    apply app_nil_r.
  - cbn [scan interleaved]. destruct (Ascii.eqb backslash c) eqn:Hc.
    + rewrite (empty_name_match_backslash b c s false Hc). cbn [matched length].
      rewrite render_found, IH. reflexivity.
    + destruct (empty_name_match_other b c s Hc) as [-> ->]. cbn [matched length].
      rewrite render_found, render_keep, IH. reflexivity.
Qed.

(** X10. With a macro whose name is the empty text, [replace_macros] puts the
    content in front of every character of the text and at its end, and
    every backslash of the text gives way to the content: the pattern is
    then just the optional backslash, which matches everywhere. *)
Theorem replace_macros_empty_name :
  forall content s, replace_macros s [([], content)] = interleaved content s.
Proof.
  intros content s. unfold replace_macros. cbn [fold_left fst snd].
  rewrite re_sub_render. apply empty_name_scan.
Qed.

(** ** Texts without a backslash *)

Lemma occurs_no_backslash name s :
  head_in (Ascii.eqb backslash) name = true ->
  existsb (Ascii.eqb backslash) s = false ->
  occurs name s = false.
Proof.
  intros Hn. destruct name as [|a name]; [discriminate|]. cbn [head_in] in Hn.
  apply Ascii.eqb_eq in Hn. subst a.
  induction s as [|c s IH]; intros H; [reflexivity|].
  cbn [existsb] in H. apply orb_false_iff in H as [Hc Hs].
  cbn [occurs starts_with]. rewrite Hc, (IH Hs). reflexivity.
Qed.

(** X11. When every macro name of the table starts with a backslash, as the
    names of TeX macros do, [replace_macros] returns a text without any
    backslash as it is. *)
Theorem replace_macros_needs_backslash :
  forall macros s,
    forallb (fun e => head_in (Ascii.eqb backslash) (fst e)) macros = true ->
    existsb (Ascii.eqb backslash) s = false ->
    replace_macros s macros = s.
Proof.
  intros macros s Hm Hs. apply replace_macros_absent.
  apply forallb_forall. intros e He. apply negb_true_iff.
  rewrite forallb_forall in Hm. apply occurs_no_backslash; [apply Hm, He|exact Hs].
Qed.

Lemma replace_macros_needs_backslash_witness :
  replace_macros (T "product and handle")
    [(T "\product", T "Data Management"); (T "\handle", T "LDM-nnn")]
  = T "product and handle".
Proof.
  apply replace_macros_needs_backslash; reflexivity.
Defined.

(** ** What the input pattern takes for a directive *)

Lemma directive_with_unclosed cmd c blanks braces fname :
  forallb is_blank blanks = true ->
  forallb is_lbrace braces = true ->
  forallb filename_char fname = true ->
  directive_with cmd (c :: cmd ++ blanks ++ braces ++ fname) = None.
Proof.
  intros Hb Hl Hf. unfold directive_with.
  destruct (Ascii.eqb backslash c); [|reflexivity].
  rewrite starts_with_app. cbn [andb].
  rewrite skipn_app, skipn_all, Nat.sub_diag. cbn [app skipn].
  assert (H3 : head_in is_lbrace fname = false)
    by (apply (head_in_other is_lbrace filename_char);
        [apply filename_not_lbrace|exact Hf]).
  assert (H2 : head_in is_blank (braces ++ fname) = false).
  { rewrite head_in_app. destruct braces as [|x bs].
    - apply (head_in_other is_blank filename_char);
        [apply filename_not_blank|exact Hf].
    - apply (head_in_other is_blank is_lbrace); [apply lbrace_not_blank|exact Hl]. }
  destruct (span_exact is_blank blanks _ Hb H2) as [-> ->].
  destruct (span_exact is_lbrace braces _ Hl H3) as [-> ->].
  rewrite <- (app_nil_r fname).
  destruct (span_exact filename_char fname [] Hf eq_refl) as [-> ->].
  destruct fname; reflexivity.
Qed.

Lemma directive_with_other_command c x :
  directive_with (T "input") (c :: T "include" ++ x) = None
  /\ directive_with (T "include") (c :: T "input" ++ x) = None.
Proof.
  unfold directive_with. split; destruct (Ascii.eqb backslash c); reflexivity.
Qed.

(** X12. The input pattern asks for no separator between the command and the
    file name and for no word end behind the command: a backslash, [input]
    or [include], any spaces, any opening braces, file name characters and
    a closing character are matched as a directive for the file named by
    those characters, so [\includegraphics ] is taken for the inclusion of
    [graphics].  The same text without the closing character, at the very
    end of the text, is not matched: a directive on a last line without
    newline stays as it is. *)
Theorem input_include_pattern_shape :
  forall b must_advance cmd blanks braces fname,
    cmd = T "input" \/ cmd = T "include" ->
    forallb is_blank blanks = true ->
    forallb is_lbrace braces = true ->
    forallb filename_char fname = true ->
    (forall t rest,
       nonempty fname = true ->
       closing_char t = true ->
       match_at input_include_pattern b
         (backslash :: cmd ++ blanks ++ braces ++ fname ++ t :: rest) must_advance
       = Some (Match (backslash :: cmd ++ blanks ++ braces ++ fname ++ [t])
                     [("filename"%string, fname); ("command"%string, cmd)]))
    /\ match_at input_include_pattern b
         (backslash :: cmd ++ blanks ++ braces ++ fname) must_advance
       = None.
Proof.
  intros b adv cmd blanks braces fname Hcmd Hb Hl Hf. split.
  - intros t rest Hn Ht. rewrite input_match. unfold directive_at.
    pose proof (shape_directive_with cmd backslash blanks braces fname t rest
                  eq_refl Hb Hl Hf Hn Ht) as H.
    destruct Hcmd as [->| ->].
    + rewrite H. reflexivity.
    + rewrite (proj1 (directive_with_other_command backslash _)), H. reflexivity.
  - rewrite input_match. unfold directive_at.
    pose proof (directive_with_unclosed cmd backslash blanks braces fname Hb Hl Hf)
      as H.
    destruct Hcmd as [->| ->].
    + rewrite H.
      rewrite (proj2 (directive_with_other_command backslash _)). reflexivity.
    + rewrite (proj1 (directive_with_other_command backslash _)), H. reflexivity.
Qed.

Lemma input_include_pattern_shape_witness :
  match_at input_include_pattern None (T "\includegraphics [width]{f}") false
  = Some (Match (T "\includegraphics ")
                [("filename"%string, T "graphics"); ("command"%string, T "include")])
  /\ match_at input_include_pattern None (T "\input  {{parts/a.tex") false = None.
Proof.
  split.
  - apply (proj1 (input_include_pattern_shape None false (T "include") [] []
                    (T "graphics") (or_intror eq_refl) eq_refl eq_refl eq_refl)
             " "%char (T "[width]{f}")); reflexivity.
  - apply (proj2 (input_include_pattern_shape None false (T "input") (T "  ") (T "{{")
                    (T "parts/a.tex") (or_introl eq_refl) eq_refl eq_refl eq_refl)).
Defined.

(** ** The suffix of the file name *)

Lemma endswith_app s suffix : endswith (s ++ suffix) suffix = true.
Proof. unfold endswith. rewrite rev_app_distr. apply starts_with_app. Qed.

Lemma full_fname_endswith fname : endswith (full_fname fname) (T ".tex") = true.
Proof.
  unfold full_fname. destruct (endswith fname (T ".tex")) eqn:E; [exact E|].
  cbn [negb]. change (T "." ++ T "tex") with (T ".tex"). apply endswith_app.
Qed.

Lemma full_fname_fixed fname :
  endswith fname (T ".tex") = true -> full_fname fname = fname.
Proof. intros H. unfold full_fname. rewrite H. reflexivity. Qed.

Lemma full_fname_suffix fname :
  endswith fname (T ".tex") = false -> full_fname fname = fname ++ T ".tex".
Proof. intros H. unfold full_fname. rewrite H. reflexivity. Qed.

(** X13. The file [_sub_line] asks for has a name that ends in [.tex]: a
    captured name that ends in [.tex] is taken as it is, any other name gets
    the suffix.  A directive written with the suffix and the same directive
    written without it are therefore replaced by the same text, with the
    same log and the same outcome. *)
Theorem sub_line_suffix_optional :
  forall (path_join : text -> text -> text) (abspath : text -> text)
         (read : text -> option text -> M text) (root_dir : option text)
         (m1 m2 : match_obj) (fname : text),
    endswith (full_fname fname) (T ".tex") = true
    /\ full_fname (full_fname fname) = full_fname fname
    /\ (endswith fname (T ".tex") = false ->
        group m1 "filename" = Some fname ->
        group m2 "filename" = Some (fname ++ T ".tex") ->
        _sub_line path_join abspath read root_dir m1
        = _sub_line path_join abspath read root_dir m2).
Proof.
  intros path_join abspath read root_dir m1 m2 fname. split; [|split].
  - apply full_fname_endswith.
  - apply full_fname_fixed, full_fname_endswith.
  - intros Hf H1 H2. unfold _sub_line. rewrite H1, H2.
    rewrite (full_fname_suffix fname Hf).
    rewrite (full_fname_fixed (fname ++ T ".tex")) by apply endswith_app.
    reflexivity.
Qed.

Lemma sub_line_suffix_optional_witness :
  _sub_line posix_join plain_abspath
    (read_tex_file project posix_join plain_abspath plain_dirname 2)
    (Some (T "/proj")) (Match (T "\input{b}") [("filename"%string, T "b")])
  = _sub_line posix_join plain_abspath
      (read_tex_file project posix_join plain_abspath plain_dirname 2)
      (Some (T "/proj")) (Match (T "\input{b.tex}") [("filename"%string, T "b.tex")]).
Proof.
  apply (proj2 (proj2 (sub_line_suffix_optional posix_join plain_abspath
                         (read_tex_file project posix_join plain_abspath plain_dirname 2)
                         (Some (T "/proj"))
                         (Match (T "\input{b}") [("filename"%string, T "b")])
                         (Match (T "\input{b.tex}") [("filename"%string, T "b.tex")])
                         (T "b")))); reflexivity.
Defined.

(** ** Includes that come back to their file *)

Section Cycles.

Variable open_read : text -> result text.
Variable path_join : text -> text -> text.
Variable abspath : text -> text.
Variable dirname : text -> text.

Local Abbreviation read_tex_file := (read_tex_file open_read path_join abspath dirname).
Local Abbreviation Includes := (Includes open_read path_join abspath).
Local Abbreviation IncludesPlus := (IncludesPlus open_read path_join abspath).

Lemma IncludesPlus_snoc root p q r :
  IncludesPlus root p q -> Includes root q r -> IncludesPlus root p r.
Proof.
  intros H Hr. induction H as [p q H|p q q' H _ IH].
  - eapply IncludesPlus_more; [exact H|]. apply IncludesPlus_one, Hr.
  - eapply IncludesPlus_more; [exact H|]. apply IH, Hr.
Qed.

(** A file on a cycle includes a file on a cycle. *)
Lemma cycle_next root p :
  IncludesPlus root p p ->
  exists q, Includes root p q /\ IncludesPlus root q q.
Proof.
  intros H. inversion H as [p0 q0 H1|p0 q r H1 H2]; subst.
  - exists p. split; assumption.
  - exists q. split; [exact H1|]. eapply IncludesPlus_snoc; eassumption.
Qed.

Lemma cycle_never_returns depth : forall root p log out,
  IncludesPlus root p p ->
  read_tex_file depth p (Some root) <> (log, Return out).
Proof.
  induction depth as [|depth IH]; intros root p log out Hc H; [discriminate|].
  destruct (cycle_next root p Hc) as (q & (content & m & fname & Ho & Hin & Hg & ->) & Hq).
  rewrite read_tex_file_step, Ho in H.
  destruct (sub_pieces_return_all _ _ _ _ _ _ _ H m Hin)
    as (fname' & l & inc & Hg' & Hr).
  rewrite Hg in Hg'. injection Hg' as <-.
  apply (IH _ _ _ _ Hq Hr).
Qed.

Lemma sub_pieces_first_raise read root pre m rest e :
  _sub_line path_join abspath read (Some root) m = ([], Raise e) ->
  sub_pieces (_sub_line path_join abspath read (Some root))
    (map Keep pre ++ Found m :: rest)
  = ([], Raise e).
Proof.
  intros H. induction pre as [|c pre IH].
  - cbn [map app sub_pieces]. rewrite H. reflexivity.
  - cbn [map app sub_pieces]. rewrite IH. reflexivity.
Qed.

(** X14. Nothing guards against includes that come back to their file.  A
    file from which a chain of directives leads back to itself is never
    resolved to a text, whatever depth is allowed: the call ends in an
    exception, the [RecursionError] of the interpreter or the exception of
    a read that failed.  When the first directive of a file names the file
    itself, that exception is the [RecursionError], at every depth, with
    nothing logged. *)
Theorem read_tex_file_cycle :
  forall path root_dir,
    (IncludesPlus (root_of dirname path root_dir) path path ->
     forall depth, exists log e,
       read_tex_file depth path root_dir = (log, Raise e)
       /\ (e = RecursionError \/ exists f, open_read f = Raise e))
    /\ (forall content pre m rest fname,
          open_read path = Return content ->
          finditer input_include_pattern
            (remove_trailing_whitespace (remove_comments content))
          = map Keep pre ++ Found m :: rest ->
          group m "filename" = Some fname ->
          target path_join abspath (root_of dirname path root_dir) fname = path ->
          forall depth,
            read_tex_file depth path root_dir = ([], Raise RecursionError)).
Proof.
  intros path root_dir. split.
  - intros Hc depth. rewrite read_tex_file_root.
    destruct (read_tex_file depth path (Some (root_of dirname path root_dir)))
      as [log [out|e]] eqn:E.
    + destruct (cycle_never_returns _ _ _ _ _ Hc E).
    + exists log, e. split; [reflexivity|].
      eapply read_tex_file_raise, E.
  - intros content pre m rest fname Ho Hs Hg Ht depth.
    rewrite read_tex_file_root.
    induction depth as [|depth IH]; [reflexivity|].
    rewrite read_tex_file_step, Ho, Hs.
    apply sub_pieces_first_raise.
    unfold _sub_line. rewrite Hg, full_fname_target, Ht, IH. reflexivity.
Qed.

End Cycles.

Lemma looping_ping_pong :
  Includes looping posix_join plain_abspath (T "/proj")
    (T "/proj/ping.tex") (T "/proj/pong.tex")
  /\ Includes looping posix_join plain_abspath (T "/proj")
       (T "/proj/pong.tex") (T "/proj/ping.tex").
Proof.
  split.
  - exists (T "see \input{b} \input{pong} "),
      (Match (T "\input{pong}")
             [("filename"%string, T "pong"); ("command"%string, T "input")]),
      (T "pong").
    split; [reflexivity|]. split; [|split; reflexivity].
    vm_compute. do 6 right. left. reflexivity.
  - exists (T "\include{ping.tex}"),
      (Match (T "\include{ping.tex}")
             [("filename"%string, T "ping.tex"); ("command"%string, T "include")]),
      (T "ping.tex").
    split; [reflexivity|]. split; [|split; reflexivity].
    vm_compute. left. reflexivity.
Qed.

Lemma read_tex_file_cycle_witness :
  (exists log e,
     read_tex_file looping posix_join plain_abspath plain_dirname 6
       (T "/proj/ping.tex") None = (log, Raise e)
     /\ (e = RecursionError \/ exists f, looping f = Raise e))
  /\ read_tex_file looping posix_join plain_abspath plain_dirname 9
       (T "/proj/loop.tex") None
     = ([], Raise RecursionError).
Proof.
  split.
  - apply (proj1 (read_tex_file_cycle looping posix_join plain_abspath plain_dirname
                    (T "/proj/ping.tex") None)).
    eapply IncludesPlus_more; [exact (proj1 looping_ping_pong)|].
    apply IncludesPlus_one. exact (proj2 looping_ping_pong).
  - apply (proj2 (read_tex_file_cycle looping posix_join plain_abspath plain_dirname
                    (T "/proj/loop.tex") None)
             (T "a \input{loop} b") (T "a ")
             (Match (T "\input{loop}")
                    [("filename"%string, T "loop"); ("command"%string, T "input")])
             [Keep " "%char; Keep "b"%char] (T "loop"));
      vm_compute; reflexivity.
Defined.

(** ** No comment is left *)

Lemma comment_free_app x : forall b y,
  comment_free b (x ++ y) = comment_free b x && comment_free (behind_after b x) y.
Proof.
  induction x as [|c x IH]; intros b y; [reflexivity|].
  cbn [app comment_free]. rewrite IH, behind_after_cons, andb_assoc. reflexivity.
Qed.

(** Only the first character of a text depends on what is in front of it. *)
Lemma comment_free_any b b' s :
  is_backslash b = false -> comment_free b s = true -> comment_free b' s = true.
Proof.
  intros Hb. destruct s as [|c s]; [reflexivity|].
  cbn [comment_free]. rewrite Hb. cbn [negb]. rewrite andb_true_r.
  intros H. apply andb_true_iff in H as [Hc Hs]. rewrite Hs, andb_true_r.
  apply negb_true_iff in Hc. rewrite Hc. reflexivity.
Qed.

Lemma before_comment_free l : forall b,
  comment_free b (before_comment (is_backslash b) l) = true.
Proof.
  induction l as [|c l IH]; intros b; [reflexivity|].
  cbn [before_comment].
  destruct (Ascii.eqb c percent && negb (is_backslash b)) eqn:E; [reflexivity|].
  cbn [comment_free]. rewrite E. cbn [negb andb].
  apply (IH (Some c)).
Qed.

Lemma unlines_comment_free ls : forall b,
  is_backslash b = false ->
  comment_free b (unlines (map strip_line ls)) = true.
Proof.
  induction ls as [|l ls IH]; intros b Hb; [reflexivity|].
  assert (Hl : comment_free b (strip_line l) = true).
  { unfold strip_line. rewrite <- Hb. apply before_comment_free. }
  destruct ls as [|l2 ls].
  - exact Hl.
  - cbn [map]. rewrite unlines_cons by discriminate.
    rewrite comment_free_app, Hl. cbn [andb comment_free].
    change (Ascii.eqb newline percent) with false. cbn [andb negb].
    apply (IH (Some newline)). reflexivity.
Qed.

Lemma remove_comments_comment_free s : comment_free None (remove_comments s) = true.
Proof.
  rewrite remove_comments_lines. apply unlines_comment_free. reflexivity.
Qed.

(** A text without comments is left as it is. *)
Lemma comment_free_scan s : forall b,
  comment_free b s = true ->
  render drop (scan comment_pattern b s 0) = s.
Proof.
  induction s as [|c s IH]; intros b H.
  - rewrite scan_end by apply comment_match_end. reflexivity.
  - cbn [comment_free] in H. apply andb_true_iff in H as [Hc Hs].
    apply negb_true_iff in Hc.
    assert (Hm : match_at comment_pattern b (c :: s) false = None).
    { destruct (Ascii.eqb c percent) eqn:Hp.
      - cbn [andb] in Hc. apply negb_false_iff in Hc.
        apply comment_match_escaped, Hc.
      - apply comment_match_other, Hp. }
    rewrite scan_keep by exact Hm. rewrite render_keep, IH by exact Hs.
    reflexivity.
Qed.

Lemma directive_with_closing cmd s d :
  directive_with cmd s = Some d ->
  exists x t, d_text d = x ++ [t] /\ closing_char t = true.
Proof.
  unfold directive_with. destruct s as [|c s1]; [discriminate|].
  destruct (Ascii.eqb backslash c && starts_with cmd s1); [|discriminate].
  set (s2 := skipn (length cmd) s1).
  set (s3 := drop_while is_blank s2).
  set (s4 := drop_while is_lbrace s3).
  destruct (take_while filename_char s4) as [|a w]; [discriminate|].
  destruct (drop_while filename_char s4) as [|t rest]; [discriminate|].
  destruct (closing_char t) eqn:Ht; [|discriminate].
  intros H. injection H as <-. cbn [d_text].
  exists (c :: cmd ++ take_while is_blank s2 ++ take_while is_lbrace s3 ++ a :: w), t.
  split; [|exact Ht]. cbn [app]. rewrite <- !app_assoc. reflexivity.
Qed.

Lemma directive_at_closing s d :
  directive_at s = Some d ->
  exists x t, d_text d = x ++ [t] /\ closing_char t = true.
Proof.
  unfold directive_at.
  destruct (directive_with (T "input") s) as [d0|] eqn:E.
  - intros H. injection H as <-. eapply directive_with_closing, E.
  - apply directive_with_closing.
Qed.

Lemma closing_not_backslash t : closing_char t = true -> is_backslash (Some t) = false.
Proof.
  intros H. cbn [is_backslash].
  destruct (Ascii.eqb_spec t backslash) as [->|]; [|reflexivity].
  vm_compute in H. discriminate.
Qed.

Lemma behind_after_snoc b x t : behind_after b (x ++ [t]) = Some t.
Proof. unfold behind_after. rewrite fold_left_app. reflexivity. Qed.

(** Putting texts without comments in the place of the directives of a text
    without comments gives a text without comments. *)
Lemma sub_pieces_comment_free (repl : match_obj -> M text) : forall ps b log out,
  (forall m, In (Found m) ps ->
     exists x t, matched m = x ++ [t] /\ closing_char t = true) ->
  (forall m l inc, repl m = (l, Return inc) -> comment_free None inc = true) ->
  comment_free b (source ps) = true ->
  sub_pieces repl ps = (log, Return out) ->
  comment_free b out = true.
Proof.
  induction ps as [|[c|m] ps IH]; intros b log out Hm Hr Hs H.
  - injection H as _ <-. reflexivity.
  - cbn [sub_pieces] in H.
    apply bind_return_inv in H as (l1 & o & l2 & H1 & H2 & _).
    injection H2 as _ <-.
    change (source (Keep c :: ps)) with (c :: source ps) in Hs.
    cbn [comment_free] in Hs |- *. apply andb_true_iff in Hs as [Hc Hs].
    rewrite Hc. cbn [andb].
    apply (IH (Some c) l1 o); auto. intros m0 H0. apply Hm. right. exact H0.
  - cbn [sub_pieces] in H.
    apply bind_return_inv in H as (l1 & inc & l2 & H1 & H2 & _).
    apply bind_return_inv in H2 as (l3 & o & l4 & H3 & H4 & _).
    injection H4 as _ <-.
    change (source (Found m :: ps)) with (matched m ++ source ps) in Hs.
    destruct (Hm m (or_introl eq_refl)) as (x & t & Hx & Ht).
    rewrite Hx, comment_free_app, behind_after_snoc in Hs.
    apply andb_true_iff in Hs as [_ Hs].
    rewrite comment_free_app. apply andb_true_iff. split.
    + apply (comment_free_any None); [reflexivity|]. apply (Hr _ _ _ H1).
    + apply (IH (behind_after b inc) l3 o); auto.
      * intros m0 H0. apply Hm. right. exact H0.
      * apply (comment_free_any (Some t)); [apply closing_not_backslash, Ht|exact Hs].
Qed.

Section NoComment.

Variable open_read : text -> result text.
Variable path_join : text -> text -> text.
Variable abspath : text -> text.
Variable dirname : text -> text.

Local Abbreviation read_tex_file := (read_tex_file open_read path_join abspath dirname).

Lemma read_tex_file_comment_free depth : forall path root log out,
  read_tex_file depth path (Some root) = (log, Return out) ->
  comment_free None out = true.
Proof.
  induction depth as [|depth IH]; intros path root log out H; [discriminate|].
  rewrite read_tex_file_step in H.
  destruct (open_read path) as [content|]; [|discriminate].
  eapply sub_pieces_comment_free; [| |  |exact H].
  - intros m Hin. apply input_found_directive in Hin as (s' & d & Hd & ->).
    apply (directive_at_closing _ _ Hd).
  - intros m l inc Hr. apply sub_line_return_inv in Hr as (fname & _ & Hr).
    apply (IH _ _ _ _ Hr).
  - rewrite finditer_source.
    rewrite <- processed_without_comments.
    apply remove_comments_comment_free.
Qed.

(** X15. The text [read_tex_file] returns holds no comment: every [%] in it
    has a backslash right in front of it, also where the text of an
    included file meets the text around it, and [remove_comments] leaves
    the returned text as it is. *)
Theorem read_tex_file_leaves_no_comment :
  forall depth path root_dir log out,
    read_tex_file depth path root_dir = (log, Return out) ->
    comment_free None out = true /\ remove_comments out = out.
Proof.
  intros depth path root_dir log out H. rewrite read_tex_file_root in H.
  pose proof (read_tex_file_comment_free _ _ _ _ _ H) as Hc.
  split; [exact Hc|].
  unfold remove_comments. rewrite re_sub_render. apply comment_free_scan, Hc.
Qed.

End NoComment.

Lemma read_tex_file_leaves_no_comment_witness :
  remove_comments (T "pre A[B" ++ newline :: T "]" ++ newline :: T "end")
  = T "pre A[B" ++ newline :: T "]" ++ newline :: T "end".
Proof.
  refine (proj2 (read_tex_file_leaves_no_comment project posix_join plain_abspath
                   plain_dirname 3 (T "/proj/main.tex") None [] _ _)).
  vm_compute. reflexivity.
Defined.

(** ** One record for each level of inclusion *)

Section Levels.

Variable open_read : text -> result text.
Variable path_join : text -> text -> text.
Variable abspath : text -> text.
Variable dirname : text -> text.

Local Abbreviation read_tex_file := (read_tex_file open_read path_join abspath dirname).
Local Abbreviation Fails := (Fails open_read path_join abspath).
Local Abbreviation Chain := (Chain open_read path_join abspath).

Lemma last_nonempty (l : list text) : forall a d d' : text,
  last (a :: l) d = last (a :: l) d'.
Proof.
  induction l as [|b l IH]; intros a d d'; [reflexivity|].
  change (last (b :: l) d = last (b :: l) d'). apply IH.
Qed.

Lemma last_cons (a d : text) (l : list text) : last (a :: l) d = last l a.
Proof.
  destruct l as [|b l]; [reflexivity|].
  change (last (b :: l) d = last (b :: l) a). apply last_nonempty.
Qed.

Lemma handler_log_map e (l : list text) :
  flat_map (handler_log e) l = if is_IOError e then map cannot_open l else [].
Proof.
  unfold handler_log. destruct (is_IOError e).
  - induction l as [|q l IH]; [reflexivity|].
    cbn [flat_map map app]. rewrite IH. reflexivity.
  - induction l as [|q l IH]; [reflexivity|exact IH].
Qed.

(** A failure comes up a chain of includes, and each file of the chain gets
    a record from the handler of the directive that included it. *)
Lemma Fails_chain root path f e log :
  Fails root path f e log ->
  exists chain,
    Chain root path chain
    /\ last chain path = f
    /\ log = flat_map (handler_log e) (rev chain).
Proof.
  induction 1 as [path e He|path content pre m rest fname f e log Ho Hps Hpre Hg _ IH].
  - exists []. repeat split.
  - destruct IH as (chain & Hc & Hl & ->).
    exists (target path_join abspath root fname :: chain). split; [|split].
    + split; [|exact Hc]. exists content, m, fname.
      split; [exact Ho|]. split; [|split; [exact Hg|reflexivity]].
      rewrite Hps. apply in_or_app. right. left. reflexivity.
    + rewrite last_cons. exact Hl.
    + cbn [rev]. rewrite flat_map_app. cbn [flat_map]. rewrite app_nil_r.
      reflexivity.
Qed.

(** X16. What is logged when a read fails.  An exception that comes out of
    [read_tex_file], other than the [RecursionError] of includes nested too
    deep, is the failure of the first directive, in the order of the text,
    whose file does not resolve, as [Fails] describes it, and every such
    failure comes out once the depth suffices.  The failing file lies at
    the end of a chain of includes from the file of the call; for an
    [IOError] the log holds one record for each file of the chain, the
    failing file first and the file included by the file of the call last,
    and for any other exception nothing is logged. *)
Theorem read_tex_file_logs_each_level :
  forall path root_dir,
    (forall depth log e,
       read_tex_file depth path root_dir = (log, Raise e) ->
       (e = RecursionError /\ log = [])
       \/ exists f, Fails (root_of dirname path root_dir) path f e log)
    /\ (forall f e log,
          Fails (root_of dirname path root_dir) path f e log ->
          open_read f = Raise e
          /\ (exists depth, forall d, depth <= d ->
                read_tex_file d path root_dir = (log, Raise e))
          /\ exists chain,
               Chain (root_of dirname path root_dir) path chain
               /\ last chain path = f
               /\ log = (if is_IOError e then map cannot_open (rev chain) else [])).
Proof.
  intros path root_dir. split.
  - intros depth log e H. rewrite read_tex_file_root in H.
    apply (read_tex_file_fails _ _ _ _ _ _ _ _ _ H).
  - intros f e log H. split; [|split].
    + apply (Fails_reads _ _ _ _ _ _ _ _ H).
    + destruct (fails_complete open_read path_join abspath dirname _ _ _ _ _ H)
        as [depth Hd].
      exists depth. intros d Hle. rewrite read_tex_file_root. apply Hd, Hle.
    + destruct (Fails_chain _ _ _ _ _ H) as (chain & Hc & Hl & ->).
      exists chain. split; [exact Hc|]. split; [exact Hl|].
      apply handler_log_map.
Qed.

End Levels.

Lemma read_tex_file_logs_each_level_witness :
  exists chain,
    Chain project posix_join plain_abspath (T "/proj") (T "/proj/bad.tex") chain
    /\ [T "Cannot open /proj/missing.tex for inclusion";
        T "Cannot open /proj/parts/c.tex for inclusion"]
       = map cannot_open (rev chain).
Proof.
  destruct (proj1 (read_tex_file_logs_each_level project posix_join plain_abspath
                     plain_dirname (T "/proj/bad.tex") None)
              3
              [T "Cannot open /proj/missing.tex for inclusion";
               T "Cannot open /proj/parts/c.tex for inclusion"]
              (IOError (T "/proj/missing.tex")) eq_refl)
    as [[Hrec _]|[f Hf]]; [discriminate|].
  destruct (proj2 (read_tex_file_logs_each_level project posix_join plain_abspath
                     plain_dirname (T "/proj/bad.tex") None) f _ _ Hf)
    as (_ & _ & chain & Hc & _ & Hl).
  exists chain. split; [exact Hc|exact Hl].
Defined.

(** ** The substituter and its console *)

Section ConsoleProperties.

Variable console : Type.
Variable logger_debug : console -> text -> console.
Variable print : console -> text -> console * option exn.

Local Abbreviation run := (Console.replace_macros console logger_debug print).






End ConsoleProperties.

